(** * Dependabot configuration manager: configuration model, merge engine
      and ecosystem detector

    A shallow embedding of [internal/config/types.go], of the merge engine
    (package [merger]: [Merge], [mergeUpdate], [createFromTemplates],
    [findUpdate], [isRootOnlyEcosystem], [mergeStringSlices], [sortUpdates])
    and of the detector (package [detector]: [Detect], [extractDirectory],
    [matchesPattern], [appendUnique]), followed by the properties of the
    specification that were checked against them.

    Conventions.  Go [string] is [string] (a sequence of bytes, compared
    bytewise); Go [int] is [Z] (no arithmetic is done on it, so no wrap-around
    arises); a slice is a [list]; a Go map is a [gmap]; a pointer that may be
    [nil] is an [option]; a loop that appends to a slice is a [fold_left]
    whose accumulator is that slice. *)

From Stdlib Require Import QArith Ascii String.
From Stdlib Require Import OrdersEx.
From stdpp Require Import gmap strings list sorting.

Set Warnings "-clear-no-such-hyp".

Local Open Scope string_scope.
Local Open Scope Z_scope.
Local Open Scope list_scope.

(** ** Package [config]

    Field names are those of the source, except where two structs have a
    field of the same name or a field has the name of a struct: [Schedule] and
    [CommitMessage] of [DependabotUpdate] are [UpdateSchedule] and
    [UpdateCommitMessage], [DependencyType] and [UpdateTypes] of [GroupConfig]
    are [GroupDependencyType] and [GroupUpdateTypes], [DependencyName] and
    [UpdateTypes] of [IgnoreConfig] are [IgnoreDependencyName] and
    [IgnoreUpdateTypes], [DependencyName] and [DependencyType] of
    [AllowConfig] are [AllowDependencyName] and [AllowDependencyType]. The two
    methods [Equal] are [UpdateEqual] (on rules) and [Equal] (on documents). *)

Record Schedule := {
  Interval : string;
  Day : string;
  Time : string;
  Timezone : string
}.

Record GroupConfig := {
  GroupDependencyType : string;
  Patterns : list string;
  ExcludePatterns : list string;
  GroupUpdateTypes : list string
}.

Record CommitMessage := {
  Prefix : string;
  PrefixDevelopment : string;
  Include : string
}.

Record IgnoreConfig := {
  IgnoreDependencyName : string;
  Versions : list string;
  IgnoreUpdateTypes : list string
}.

Record AllowConfig := {
  AllowDependencyName : string;
  AllowDependencyType : string
}.

Record DependabotUpdate := {
  PackageEcosystem : string;
  Directory : string;
  UpdateSchedule : Schedule;
  OpenPullRequestsLimit : Z;
  Labels : list string;
  Reviewers : list string;
  Assignees : list string;
  Milestone : Z;
  Groups : gmap string GroupConfig;
  VersioningStrategy : string;
  UpdateCommitMessage : option CommitMessage;
  TargetBranch : string;
  Vendor : bool;
  Insecure : list string;
  RebaseStrategy : string;
  Ignore : list IgnoreConfig;
  Allow : list AllowConfig;
  Registries : list string
}.

Record DependabotConfig := {
  Version : Z;
  Updates : list DependabotUpdate
}.

(** [u.Directory = d] on a copy of [u]. *)
Definition setDirectory (u : DependabotUpdate) (d : string) : DependabotUpdate :=
  {| PackageEcosystem := PackageEcosystem u;
     Directory := d;
     UpdateSchedule := UpdateSchedule u;
     OpenPullRequestsLimit := OpenPullRequestsLimit u;
     Labels := Labels u;
     Reviewers := Reviewers u;
     Assignees := Assignees u;
     Milestone := Milestone u;
     Groups := Groups u;
     VersioningStrategy := VersioningStrategy u;
     UpdateCommitMessage := UpdateCommitMessage u;
     TargetBranch := TargetBranch u;
     Vendor := Vendor u;
     Insecure := Insecure u;
     RebaseStrategy := RebaseStrategy u;
     Ignore := Ignore u;
     Allow := Allow u;
     Registries := Registries u |}.

(** [func (u *DependabotUpdate) Equal(other *DependabotUpdate) bool] *)
Definition UpdateEqual (u other : DependabotUpdate) : bool :=
  if negb (PackageEcosystem u =? PackageEcosystem other)%string then false
  else if negb (Directory u =? Directory other)%string then false
  else if negb (Interval (UpdateSchedule u) =? Interval (UpdateSchedule other))%string
  then false
  else if negb (OpenPullRequestsLimit u =? OpenPullRequestsLimit other) then false
  else true.

(** The loop [for i := range c.Updates] of [DependabotConfig.Equal]; it
    reads [other.Updates[i]], which the length test before it keeps in
    range, so the second list running out first is not a case the loop
    meets (it is answered [false] here). *)
Fixpoint updatesEqual (us others : list DependabotUpdate) : bool :=
  match us with
  | [] => true
  | u :: us' =>
      match others with
      | [] => false
      | o :: others' => if negb (UpdateEqual u o) then false else updatesEqual us' others'
      end
  end.

(** [func (c *DependabotConfig) Equal(other *DependabotConfig) bool];
    both receiver and argument may be [nil]. *)
Definition Equal (c other : option DependabotConfig) : bool :=
  match c, other with
  | None, None => true
  | None, Some _ | Some _, None => false
  | Some c, Some other =>
      if negb (Version c =? Version other) then false
      else if negb (length (Updates c) =? length (Updates other))%nat then false
      else updatesEqual (Updates c) (Updates other)
  end.

(** ** Package [detector]: the detected ecosystem

    [Confidence] is a [float64] in the source; the only values it takes are
    the decimal weights of the indicator table and the only operation on it
    is the comparison [>], so it is kept as a rational. *)

(** The field [Type] of the source is [EcoType] here. *)
Record Ecosystem := {
  Name : string;
  EcoType : string;
  Directories : list string;
  Confidence : Q
}.

(** ** Package [merger] *)

Record Merger := {
  templates : gmap string DependabotConfig;
  templatesDir : string
}.

Definition rootOnlyEcosystems : gmap string bool :=
  <["github-actions" := true]>
    (<["docker" := true]>
       (<["terraform" := true]>
          (<["gitsubmodule" := true]> ∅))).

(** Indexing a Go [map[string]bool] with a missing key gives [false]. *)
Definition isRootOnlyEcosystem (ecosystem : string) : bool :=
  default false (rootOnlyEcosystems !! ecosystem).

Fixpoint findUpdate (updates : list DependabotUpdate) (ecosystem directory : string)
  : option DependabotUpdate :=
  match updates with
  | [] => None
  | u :: rest =>
      if (PackageEcosystem u =? ecosystem)%string then
        if default false (rootOnlyEcosystems !! ecosystem) then Some u
        else if (Directory u =? directory)%string then Some u
        else findUpdate rest ecosystem directory
      else findUpdate rest ecosystem directory
  end.

(** One loop of [mergeStringSlices]: the state is the [seen] set and the
    [result] slice. *)
Definition appendUnseen (st : gset string * list string) (item : string)
  : gset string * list string :=
  let '(seen, result) := st in
  if bool_decide (item ∈ seen) then (seen, result)
  else ({[item]} ∪ seen, result ++ [item]).

Definition mergeStringSlices (a b : list string) : list string :=
  let st := fold_left appendUnseen a (∅, []) in
  let st := fold_left appendUnseen b st in
  st.2.

(** [mergeUpdate].  [merged := existing] copies the struct; the fields the
    function does not assign keep the existing rule's value.  The [Groups]
    map is held by value here: the source writes the template's groups into
    the map object of the existing rule, which is the same content. *)
Definition mergeUpdate (existing template : DependabotUpdate) : DependabotUpdate :=
  {| PackageEcosystem := PackageEcosystem existing;
     Directory := Directory existing;
     UpdateSchedule := UpdateSchedule template;
     OpenPullRequestsLimit :=
       if 0 <? OpenPullRequestsLimit template then OpenPullRequestsLimit template
       else OpenPullRequestsLimit existing;
     Labels := mergeStringSlices (Labels existing) (Labels template);
     Reviewers := mergeStringSlices (Reviewers existing) (Reviewers template);
     Assignees := mergeStringSlices (Assignees existing) (Assignees template);
     Milestone := Milestone existing;
     Groups :=
       if (0 <? size (Groups template))%nat then Groups template ∪ Groups existing
       else Groups existing;
     VersioningStrategy :=
       if negb (VersioningStrategy template =? "")%string then VersioningStrategy template
       else VersioningStrategy existing;
     UpdateCommitMessage :=
       match UpdateCommitMessage existing, UpdateCommitMessage template with
       | None, Some c => Some c
       | cm, _ => cm
       end;
     TargetBranch := TargetBranch existing;
     Vendor := Vendor existing;
     Insecure := Insecure existing;
     RebaseStrategy := RebaseStrategy existing;
     Ignore := Ignore existing;
     Allow := Allow existing;
     Registries := Registries existing |}.

(** The comparison function given to [sort.Slice]. *)
Definition updateLess (u v : DependabotUpdate) : bool :=
  if negb (PackageEcosystem u =? PackageEcosystem v)%string
  then (PackageEcosystem u <? PackageEcosystem v)%string
  else (Directory u <? Directory v)%string.

(** [sort.Slice] is the library's; on slices of at most twelve elements it
    is the insertion sort below, and on longer ones its result is again a
    sorted rearrangement, which may order rules of equal key differently.
    Each element is moved left while it is [updateLess] than its
    predecessor; in the sorted prefix that is the place in front of the first
    element it is less than. *)
Fixpoint insertUpdate (x : DependabotUpdate) (sorted : list DependabotUpdate)
  : list DependabotUpdate :=
  match sorted with
  | [] => [x]
  | y :: rest => if updateLess x y then x :: y :: rest else y :: insertUpdate x rest
  end.

Definition sortUpdates (updates : list DependabotUpdate) : list DependabotUpdate :=
  fold_left (fun sorted x => insertUpdate x sorted) updates [].

(** The rule [createFromTemplates] makes up for an ecosystem that has no
    template; the fields not named in the literal are Go zero values. *)
Definition basicUpdate (ecosystem dir : string) : DependabotUpdate :=
  {| PackageEcosystem := ecosystem;
     Directory := dir;
     UpdateSchedule := {| Interval := "weekly"; Day := ""; Time := ""; Timezone := "" |};
     OpenPullRequestsLimit := 10;
     Labels := ["dependencies"];
     Reviewers := [];
     Assignees := [];
     Milestone := 0;
     Groups := ∅;
     VersioningStrategy := "";
     UpdateCommitMessage := None;
     TargetBranch := "";
     Vendor := false;
     Insecure := [];
     RebaseStrategy := "";
     Ignore := [];
     Allow := [];
     Registries := [] |}.

(** Body of the loop over the detected ecosystems in [createFromTemplates];
    [acc] is [cfg.Updates]. *)
Definition createStep (m : Merger) (acc : list DependabotUpdate) (eco : Ecosystem)
  : list DependabotUpdate :=
  match templates m !! Name eco with
  | None =>
      fold_left (fun acc dir => acc ++ [basicUpdate (EcoType eco) dir]) (Directories eco) acc
  | Some template =>
      fold_left
        (fun acc dir =>
           fold_left (fun acc tmplUpdate => acc ++ [setDirectory tmplUpdate dir])
             (Updates template) acc)
        (Directories eco) acc
  end.

Definition createFromTemplates (m : Merger) (ecosystems : list Ecosystem)
  : DependabotConfig :=
  {| Version := 2;
     Updates := sortUpdates (fold_left (createStep m) ecosystems []) |}.

(** Body of the loop over the detected ecosystems in [Merge]; [acc] is
    [merged.Updates]. *)
Definition mergeStep (m : Merger) (existing : DependabotConfig)
  (acc : list DependabotUpdate) (eco : Ecosystem) : list DependabotUpdate :=
  match templates m !! Name eco with
  | None => acc
  | Some template =>
      fold_left
        (fun acc dir =>
           match findUpdate (Updates existing) (EcoType eco) dir with
           | Some existingUpdate =>
               fold_left
                 (fun acc tmplUpdate =>
                    acc ++ [setDirectory (mergeUpdate existingUpdate tmplUpdate)
                              (if isRootOnlyEcosystem (EcoType eco) then "/" else dir)])
                 (Updates template) acc
           | None =>
               fold_left (fun acc tmplUpdate => acc ++ [setDirectory tmplUpdate dir])
                 (Updates template) acc
           end)
        (Directories eco) acc
  end.

(** The inner loop of the carry-forward part: is [existingUpdate] found
    among the rules merged so far? *)
Definition covers (existingUpdate mergedUpdate : DependabotUpdate) : bool :=
  if isRootOnlyEcosystem (PackageEcosystem existingUpdate) then
    (PackageEcosystem mergedUpdate =? PackageEcosystem existingUpdate)%string
  else
    (PackageEcosystem mergedUpdate =? PackageEcosystem existingUpdate)%string
    && (Directory mergedUpdate =? Directory existingUpdate)%string.

Definition normalizeRootOnly (existingUpdate : DependabotUpdate) : DependabotUpdate :=
  if isRootOnlyEcosystem (PackageEcosystem existingUpdate)
  then setDirectory existingUpdate "/"
  else existingUpdate.

(** Body of the loop over [existing.Updates]; the search runs over
    [merged.Updates] as it stands, rules carried forward earlier included. *)
Definition carryStep (acc : list DependabotUpdate) (existingUpdate : DependabotUpdate)
  : list DependabotUpdate :=
  if existsb (covers existingUpdate) acc then acc
  else acc ++ [normalizeRootOnly existingUpdate].

(** [merged.Updates] after the loop over the detected ecosystems. *)
Definition processDetected (m : Merger) (existing : DependabotConfig)
  (ecosystems : list Ecosystem) : list DependabotUpdate :=
  fold_left (mergeStep m existing) ecosystems [].

(** [merged.Updates] after the loop over the existing rules. *)
Definition carryForward (existing : DependabotConfig) (merged : list DependabotUpdate)
  : list DependabotUpdate :=
  fold_left carryStep (Updates existing) merged.

Definition Merge (m : Merger) (existing : option DependabotConfig)
  (ecosystems : list Ecosystem) : DependabotConfig :=
  match existing with
  | None => createFromTemplates m ecosystems
  | Some existing =>
      let merged := processDetected m existing ecosystems in
      let merged := carryForward existing merged in
      {| Version := 2; Updates := sortUpdates merged |}
  end.

(** ** Package [detector] *)

(** A [github.TreeEntry], of which [Detect] reads the two pointer fields
    [Type] and [Path]. *)
Record TreeEntry := {
  EntryType : option string;
  EntryPath : option string
}.

Record indicator := {
  file : string;
  confidence : Q
}.

(** The table [indicators] of [Detect], in the order of the source. It is a
    Go map there, ranged over in an unspecified order; one turn of that loop
    reads and writes the entry of its own ecosystem only. *)
Definition indicators : list (string * list indicator) :=
  [ ("npm",
      [ {| file := "package-lock.json"; confidence := 1 |};
        {| file := "yarn.lock"; confidence := 1 |};
        {| file := "pnpm-lock.yaml"; confidence := 1 |};
        {| file := "package.json"; confidence := 8 # 10 |} ]);
    ("gomod",
      [ {| file := "go.sum"; confidence := 1 |};
        {| file := "go.mod"; confidence := 9 # 10 |} ]);
    ("pip",
      [ {| file := "poetry.lock"; confidence := 1 |};
        {| file := "Pipfile.lock"; confidence := 1 |};
        {| file := "requirements.txt"; confidence := 8 # 10 |};
        {| file := "setup.py"; confidence := 7 # 10 |};
        {| file := "pyproject.toml"; confidence := 9 # 10 |} ]);
    ("docker",
      [ {| file := "Dockerfile"; confidence := 9 # 10 |};
        {| file := "docker-compose.yml"; confidence := 8 # 10 |};
        {| file := "docker-compose.yaml"; confidence := 8 # 10 |};
        {| file := "Dockerfile.*"; confidence := 9 # 10 |} ]);
    ("maven",
      [ {| file := "pom.xml"; confidence := 9 # 10 |} ]);
    ("gradle",
      [ {| file := "gradle.lock"; confidence := 1 |};
        {| file := "build.gradle"; confidence := 8 # 10 |};
        {| file := "build.gradle.kts"; confidence := 8 # 10 |} ]);
    ("bundler",
      [ {| file := "Gemfile.lock"; confidence := 1 |};
        {| file := "Gemfile"; confidence := 8 # 10 |} ]);
    ("cargo",
      [ {| file := "Cargo.lock"; confidence := 1 |};
        {| file := "Cargo.toml"; confidence := 8 # 10 |} ]);
    ("composer",
      [ {| file := "composer.lock"; confidence := 1 |};
        {| file := "composer.json"; confidence := 8 # 10 |} ]);
    ("nuget",
      [ {| file := "packages.config"; confidence := 8 # 10 |};
        {| file := "*.csproj"; confidence := 7 # 10 |};
        {| file := "*.fsproj"; confidence := 7 # 10 |};
        {| file := "*.vbproj"; confidence := 7 # 10 |} ]);
    ("github-actions",
      [ {| file := ".github/workflows/*.yml"; confidence := 9 # 10 |};
        {| file := ".github/workflows/*.yaml"; confidence := 9 # 10 |} ]);
    ("terraform",
      [ {| file := "*.tf"; confidence := 8 # 10 |};
        {| file := ".terraform.lock.hcl"; confidence := 1 |} ]);
    ("elm",
      [ {| file := "elm.json"; confidence := 9 # 10 |};
        {| file := "elm-package.json"; confidence := 8 # 10 |} ]);
    ("gitsubmodule",
      [ {| file := ".gitmodules"; confidence := 9 # 10 |} ]);
    ("pub",
      [ {| file := "pubspec.yaml"; confidence := 9 # 10 |};
        {| file := "pubspec.lock"; confidence := 1 |} ]);
    ("hex",
      [ {| file := "mix.exs"; confidence := 9 # 10 |};
        {| file := "mix.lock"; confidence := 1 |} ]) ].

(** *** The functions of [path/filepath] the detector calls

    They belong to the Go library, not to the repository; they are written
    here from the library's documentation, for the separator ["/"]. *)

Definition isSlash (c : ascii) : bool := Ascii.eqb c "/"%char.

Fixpoint hasSlash (s : string) : bool :=
  match s with
  | EmptyString => false
  | String c rest => isSlash c || hasSlash rest
  end.

Fixpoint stripTrailingSlashes (s : string) : string :=
  match s with
  | EmptyString => EmptyString
  | String c rest =>
      match stripTrailingSlashes rest with
      | EmptyString => if isSlash c then EmptyString else String c EmptyString
      | rest' => String c rest'
      end
  end.

Fixpoint afterLastSlash (s : string) : string :=
  match s with
  | EmptyString => EmptyString
  | String c rest =>
      if hasSlash rest then afterLastSlash rest
      else if isSlash c then rest else String c rest
  end.

(** Everything up to and including the last separator. *)
Fixpoint uptoLastSlash (s : string) : string :=
  match s with
  | EmptyString => EmptyString
  | String c rest =>
      if hasSlash rest then String c (uptoLastSlash rest)
      else if isSlash c then String c EmptyString else EmptyString
  end.

(** [filepath.Base]: the last element of the path, trailing separators
    removed first; ["."] for the empty path, ["/"] for a path of separators
    only. *)
Definition filepath_Base (path : string) : string :=
  if (path =? "")%string then "."
  else
    let path := afterLastSlash (stripTrailingSlashes path) in
    if (path =? "")%string then "/" else path.

(** The path elements between separators. *)
Fixpoint splitSlash (s : string) (cur : string) : list string :=
  match s with
  | EmptyString => [cur]
  | String c rest =>
      if isSlash c then cur :: splitSlash rest EmptyString
      else splitSlash rest (cur +:+ String c EmptyString)
  end.

(** One element of the path against the elements kept so far (innermost
    first): empty elements and ["."] go, [".."] takes away the element before
    it, is dropped at the root, and is kept at the front of a relative
    path. *)
Definition cleanElement (rooted : bool) (kept : list string) (elem : string)
  : list string :=
  if (elem =? "")%string || (elem =? ".")%string then kept
  else if (elem =? "..")%string then
    match kept with
    | [] => if rooted then [] else [elem]
    | top :: below => if (top =? "..")%string then elem :: kept else below
    end
  else elem :: kept.

Fixpoint joinSlash (elems : list string) : string :=
  match elems with
  | [] => EmptyString
  | [e] => e
  | e :: rest => e +:+ "/" +:+ joinSlash rest
  end.

(** [filepath.Clean]. *)
Definition filepath_Clean (path : string) : string :=
  let rooted := match path with String c _ => isSlash c | EmptyString => false end in
  let kept := fold_left (cleanElement rooted) (splitSlash path EmptyString) [] in
  let body := joinSlash (rev kept) in
  if rooted then "/" +:+ body
  else if (body =? "")%string then "." else body.

(** [filepath.Dir]: all but the last element of the path, cleaned. *)
Definition filepath_Dir (path : string) : string :=
  filepath_Clean (uptoLastSlash path).

(** [filepath.Match], for patterns made of ordinary characters, [*] (any
    run of characters other than the separator) and [?] (one character other
    than the separator); the table has no pattern with a character class or
    an escape. The error result is dropped, as the caller drops it. *)
Fixpoint globMatch (pattern : list ascii) : list ascii -> bool :=
  match pattern with
  | [] => fun name => match name with [] => true | _ => false end
  | p :: pattern' =>
      if Ascii.eqb p "*"%char then
        fix star (name : list ascii) : bool :=
          globMatch pattern' name
          || match name with
             | [] => false
             | c :: name' => negb (isSlash c) && star name'
             end
      else
        fun name =>
          match name with
          | [] => false
          | c :: name' =>
              (if Ascii.eqb p "?"%char then negb (isSlash c) else Ascii.eqb p c)
              && globMatch pattern' name'
          end
  end.

Definition filepath_Match (pattern name : string) : bool :=
  globMatch (list_ascii_of_string pattern) (list_ascii_of_string name).

(** [strings.Contains(pattern, "*")] *)
Fixpoint containsStar (s : string) : bool :=
  match s with
  | EmptyString => false
  | String c rest => Ascii.eqb c "*"%char || containsStar rest
  end.

(** [strings.HasPrefix(dir, "/")] *)
Definition hasSlashPrefix (s : string) : bool :=
  match s with
  | String c _ => isSlash c
  | EmptyString => false
  end.

Definition extractDirectory (path : string) : string :=
  let dir := filepath_Dir path in
  if (dir =? ".")%string then "/"
  else if negb (hasSlashPrefix dir) then "/" +:+ dir
  else dir.

Definition matchesPattern (path pattern : string) : bool :=
  if containsStar pattern then
    if filepath_Match pattern (filepath_Base path) then true
    else filepath_Match pattern path
  else (filepath_Base path =? pattern)%string || (path =? pattern)%string.

Fixpoint appendUnique (slice : list string) (item : string) : list string :=
  match slice with
  | [] => [item]
  | existing :: rest =>
      if (existing =? item)%string then slice else existing :: appendUnique rest item
  end.

Definition setConfidence (eco : Ecosystem) (c : Q) : Ecosystem :=
  {| Name := Name eco; EcoType := EcoType eco;
     Directories := Directories eco; Confidence := c |}.

Definition setDirectories (eco : Ecosystem) (dirs : list string) : Ecosystem :=
  {| Name := Name eco; EcoType := EcoType eco;
     Directories := dirs; Confidence := Confidence eco |}.

(** [a > b] on the weights. *)
Definition confidenceGreater (a b : Q) : bool := negb (Qle_bool a b).

(** The [switch] on the ecosystems that always scan from the root. *)
Definition scansFromRoot (ecosystem : string) : bool :=
  (ecosystem =? "docker")%string || (ecosystem =? "github-actions")%string
  || (ecosystem =? "terraform")%string || (ecosystem =? "gitsubmodule")%string.

(** The body of [if matchesPattern(path, ind.file)]: the map [ecosystems]
    holds pointers, so the two assignments update the entry in place. *)
Definition recordMatch (ecosystems : gmap string Ecosystem)
  (ecosystem dir : string) (ind : indicator) : gmap string Ecosystem :=
  let ecosystems :=
    match ecosystems !! ecosystem with
    | None =>
        <[ecosystem := {| Name := ecosystem; EcoType := ecosystem;
                          Directories := []; Confidence := confidence ind |}]> ecosystems
    | Some eco =>
        if confidenceGreater (confidence ind) (Confidence eco)
        then <[ecosystem := setConfidence eco (confidence ind)]> ecosystems
        else ecosystems
    end in
  let directory := if scansFromRoot ecosystem then "/" else dir in
  alter (fun eco => setDirectories eco (appendUnique (Directories eco) directory))
    ecosystem ecosystems.

(** The two inner loops, for one blob of the tree. *)
Definition scanPath (table : list (string * list indicator))
  (ecosystems : gmap string Ecosystem) (path : string) : gmap string Ecosystem :=
  let dir := extractDirectory path in
  fold_left
    (fun ecosystems '(ecosystem, files) =>
       fold_left
         (fun ecosystems ind =>
            if matchesPattern path (file ind)
            then recordMatch ecosystems ecosystem dir ind
            else ecosystems)
         files ecosystems)
    table ecosystems.

Definition isBlob (entry : TreeEntry) : option string :=
  match EntryType entry, EntryPath entry with
  | Some t, Some path => if (t =? "blob")%string then Some path else None
  | _, _ => None
  end.

Definition scanEntry (table : list (string * list indicator))
  (ecosystems : gmap string Ecosystem) (entry : TreeEntry) : gmap string Ecosystem :=
  match isBlob entry with
  | Some path => scanPath table ecosystems path
  | None => ecosystems
  end.

(** The inner loop of the final sort, for a fixed [i]: [ri] is [result[i]]
    and [rest] is [result[i+1:]]. *)
Fixpoint swapPass (ri : Ecosystem) (rest : list Ecosystem) : Ecosystem * list Ecosystem :=
  match rest with
  | [] => (ri, [])
  | rj :: rest' =>
      if confidenceGreater (Confidence rj) (Confidence ri)
      then let '(ri', rest'') := swapPass rj rest' in (ri', ri :: rest'')
      else let '(ri', rest'') := swapPass ri rest' in (ri', rj :: rest'')
  end.

(** The outer loop; [rounds] counts the turns left, [len(result)-1] at the
    start. *)
Fixpoint sortRounds (rounds : nat) (result : list Ecosystem) : list Ecosystem :=
  match rounds with
  | O => result
  | S rounds' =>
      match result with
      | [] => []
      | ri :: rest =>
          let '(ri', rest') := swapPass ri rest in
          ri' :: sortRounds rounds' rest'
      end
  end.

Definition sortByConfidence (result : list Ecosystem) : list Ecosystem :=
  sortRounds (length result - 1) result.

Definition ecosystemTags : list string := indicators.*1.

(** [Detect].  [tree] is what [GetTree] returned, [None] when it failed.
    [iteration] is the order in which [for _, eco := range ecosystems]
    visits the keys of the map: Go leaves it unspecified, and it is any
    arrangement of the tags, those absent from the map being passed over. *)
Definition Detect (iteration : list string) (tree : option (list TreeEntry))
  : option (list Ecosystem) :=
  match tree with
  | None => None
  | Some entries =>
      let ecosystems := fold_left (scanEntry indicators) entries ∅ in
      let result := omap (fun tag => ecosystems !! tag) iteration in
      Some (sortByConfidence result)
  end.

(** ** The words of the specification, as definitions *)

(** "de-duplicated, first-seen order kept": every item stays at its first
    occurrence and its later occurrences are dropped. *)
Fixpoint firstSeen (l : list string) : list string :=
  match l with
  | [] => []
  | x :: rest => x :: filter (fun y => y ≠ x) (firstSeen rest)
  end.

(** The fields of a rule that [DependabotUpdate.Equal] reads. *)
Definition comparedFields (u : DependabotUpdate) : string * string * string * Z :=
  (PackageEcosystem u, Directory u, Interval (UpdateSchedule u), OpenPullRequestsLimit u).

(** The rules of the "Preservation" example. *)
Definition emptySchedule : Schedule :=
  {| Interval := ""; Day := ""; Time := ""; Timezone := "" |}.

Definition weeklySchedule : Schedule :=
  {| Interval := "weekly"; Day := ""; Time := ""; Timezone := "" |}.

Definition blankUpdate (ecosystem : string) : DependabotUpdate :=
  {| PackageEcosystem := ecosystem;
     Directory := "";
     UpdateSchedule := emptySchedule;
     OpenPullRequestsLimit := 0;
     Labels := [];
     Reviewers := [];
     Assignees := [];
     Milestone := 0;
     Groups := ∅;
     VersioningStrategy := "";
     UpdateCommitMessage := None;
     TargetBranch := "";
     Vendor := false;
     Insecure := [];
     RebaseStrategy := "";
     Ignore := [];
     Allow := [];
     Registries := [] |}.

Definition withSchedule (u : DependabotUpdate) (s : Schedule) (limit : Z)
  : DependabotUpdate :=
  {| PackageEcosystem := PackageEcosystem u;
     Directory := Directory u;
     UpdateSchedule := s;
     OpenPullRequestsLimit := limit;
     Labels := Labels u;
     Reviewers := Reviewers u;
     Assignees := Assignees u;
     Milestone := Milestone u;
     Groups := Groups u;
     VersioningStrategy := VersioningStrategy u;
     UpdateCommitMessage := UpdateCommitMessage u;
     TargetBranch := TargetBranch u;
     Vendor := Vendor u;
     Insecure := Insecure u;
     RebaseStrategy := RebaseStrategy u;
     Ignore := Ignore u;
     Allow := Allow u;
     Registries := Registries u |}.

Definition preservationExisting : DependabotUpdate :=
  {| PackageEcosystem := "npm";
     Directory := "/";
     UpdateSchedule := emptySchedule;
     OpenPullRequestsLimit := 0;
     Labels := [];
     Reviewers := [];
     Assignees := [];
     Milestone := 0;
     Groups := ∅;
     VersioningStrategy := "";
     UpdateCommitMessage := None;
     TargetBranch := "develop";
     Vendor := true;
     Insecure := [];
     RebaseStrategy := "";
     Ignore := [];
     Allow := [];
     Registries := [] |}.

Definition preservationTemplate : DependabotUpdate :=
  withSchedule (blankUpdate "npm") weeklySchedule 10.

(** "sorted ascending lexicographically, first by ecosystem identifier and
    then by directory": the order two neighbouring rules must be in. *)
Definition ruleLe (u v : DependabotUpdate) : Prop :=
  (PackageEcosystem u <? PackageEcosystem v)%string = true
  ∨ (PackageEcosystem u = PackageEcosystem v
     ∧ (Directory u <=? Directory v)%string = true).

(** The labels of the "Label union" example. *)
Definition unionExisting : DependabotUpdate :=
  {| PackageEcosystem := "npm";
     Directory := "/";
     UpdateSchedule := emptySchedule;
     OpenPullRequestsLimit := 0;
     Labels := ["dependencies"; "custom"];
     Reviewers := [];
     Assignees := [];
     Milestone := 0;
     Groups := ∅;
     VersioningStrategy := "";
     UpdateCommitMessage := None;
     TargetBranch := "";
     Vendor := false;
     Insecure := [];
     RebaseStrategy := "";
     Ignore := [];
     Allow := [];
     Registries := [] |}.

Definition unionTemplate : DependabotUpdate :=
  {| PackageEcosystem := "npm";
     Directory := "";
     UpdateSchedule := weeklySchedule;
     OpenPullRequestsLimit := 10;
     Labels := ["automated"; "npm"];
     Reviewers := [];
     Assignees := [];
     Milestone := 0;
     Groups := ∅;
     VersioningStrategy := "";
     UpdateCommitMessage := None;
     TargetBranch := "";
     Vendor := false;
     Insecure := [];
     RebaseStrategy := "";
     Ignore := [];
     Allow := [];
     Registries := [] |}.

(** What identifies a rule in a document: the pair (ecosystem, directory),
    and the ecosystem alone when it is root-only (its directory then counts
    as ["/"]). *)
Definition identity (u : DependabotUpdate) : string * string :=
  (PackageEcosystem u,
   if isRootOnlyEcosystem (PackageEcosystem u) then "/" else Directory u).

(** The rules one detected ecosystem contributes in [createFromTemplates]. *)
Definition createRules (m : Merger) (eco : Ecosystem) : list DependabotUpdate :=
  match templates m !! Name eco with
  | None => basicUpdate (EcoType eco) <$> Directories eco
  | Some template =>
      dir ← Directories eco;
      (fun tmplUpdate => setDirectory tmplUpdate dir) <$> Updates template
  end.

(** The rules one detected ecosystem contributes in the first loop of
    [Merge]. *)
Definition mergeRules (m : Merger) (existing : DependabotConfig) (eco : Ecosystem)
  : list DependabotUpdate :=
  match templates m !! Name eco with
  | None => []
  | Some template =>
      dir ← Directories eco;
      match findUpdate (Updates existing) (EcoType eco) dir with
      | Some existingUpdate =>
          (fun tmplUpdate =>
             setDirectory (mergeUpdate existingUpdate tmplUpdate)
               (if isRootOnlyEcosystem (EcoType eco) then "/" else dir))
            <$> Updates template
      | None => (fun tmplUpdate => setDirectory tmplUpdate dir) <$> Updates template
      end
  end.

(** The detected ecosystems and templates the rest of the program hands to
    [Merge]: [Detect] returns every ecosystem once, each of its directories
    once and ["/"] as the only directory of a root-only ecosystem; a template
    holds at most one rule, for the ecosystem it is the template of. *)
Definition wellFormedEcosystem (m : Merger) (eco : Ecosystem) : Prop :=
  NoDup (Directories eco)
  ∧ (isRootOnlyEcosystem (EcoType eco) = true →
     Forall (fun dir => dir = "/") (Directories eco))
  ∧ match templates m !! Name eco with
    | None => True
    | Some template =>
        (length (Updates template) ≤ 1)%nat
        ∧ Forall (fun tmplUpdate => PackageEcosystem tmplUpdate = EcoType eco)
            (Updates template)
    end.

Definition wellFormed (m : Merger) (ecosystems : list Ecosystem) : Prop :=
  NoDup (EcoType <$> ecosystems) ∧ Forall (wellFormedEcosystem m) ecosystems.

#[global] Instance wellFormedEcosystem_dec m eco : Decision (wellFormedEcosystem m eco).
Proof.
  unfold wellFormedEcosystem. destruct (templates m !! Name eco); apply _.
Defined.

#[global] Instance wellFormed_dec m ecosystems : Decision (wellFormed m ecosystems).
Proof. unfold wellFormed. apply _. Defined.

(** The place of a rule in the order of [sortUpdates], read off the fields
    [Equal] compares. *)
Definition fieldsLe (p q : string * string * string * Z) : Prop :=
  (p.1.1.1 <? q.1.1.1)%string = true
  ∨ (p.1.1.1 = q.1.1.1 ∧ (p.1.1.2 <=? q.1.1.2)%string = true).

Definition fieldsIdentity (p : string * string * string * Z) : string * string :=
  (p.1.1.1, if isRootOnlyEcosystem p.1.1.1 then "/" else p.1.1.2).

(** A rule [g] made for directory [dir] of the detected ecosystem [eco]:
    it carries the ecosystem's tag and that directory, and the schedule and
    (when positive) the limit of the template's rule, if there is one. *)
Definition instantiates (m : Merger) (eco : Ecosystem) (dir : string)
  (g : DependabotUpdate) : Prop :=
  PackageEcosystem g = EcoType eco
  ∧ Directory g = dir
  ∧ ∀ template tmplUpdate,
      templates m !! Name eco = Some template → tmplUpdate ∈ Updates template →
      Interval (UpdateSchedule g) = Interval (UpdateSchedule tmplUpdate)
      ∧ (0 < OpenPullRequestsLimit tmplUpdate →
         OpenPullRequestsLimit g = OpenPullRequestsLimit tmplUpdate).

(** The rules made for one detected ecosystem: one per directory, or none
    when its template is empty (or, in [Merge], missing). *)
Definition generatedShape (m : Merger) (eco : Ecosystem)
  (rules : list DependabotUpdate) : Prop :=
  (∃ h : string → DependabotUpdate,
      rules = h <$> Directories eco
      ∧ ∀ dir, dir ∈ Directories eco → instantiates m eco dir (h dir))
  ∨ (rules = []
     ∧ ∀ template tmplUpdate,
         templates m !! Name eco = Some template → tmplUpdate ∉ Updates template).

(** The paths of the blobs of a tree, in order. *)
Definition blobPaths (entries : list TreeEntry) : list string := omap isBlob entries.

(** "the maximum weight over all indicators of that ecosystem matched by any
    file in the tree": [c] is the weight of one such indicator and no such
    indicator weighs more. *)
Definition isMaxWeight (entries : list TreeEntry) (tag : string) (c : Q) : Prop :=
  (∃ path files ind,
      path ∈ blobPaths entries ∧ (tag, files) ∈ indicators ∧ ind ∈ files
      ∧ matchesPattern path (file ind) = true ∧ c = confidence ind)
  ∧ ∀ path files ind,
      path ∈ blobPaths entries → (tag, files) ∈ indicators → ind ∈ files →
      matchesPattern path (file ind) = true → (confidence ind <= c)%Q.

(** Highest confidence first. *)
Definition confidenceGe (a b : Ecosystem) : Prop :=
  (Confidence b <= Confidence a)%Q.

(** The matches [Detect] meets, in the order it meets them: ecosystem,
    directory of the file, indicator. *)
Definition pathMatches (table : list (string * list indicator)) (path : string)
  : list (string * string * indicator) :=
  '(ecosystem, files) ← table;
  (fun ind => (ecosystem, extractDirectory path, ind))
    <$> filter (fun ind => matchesPattern path (file ind) = true) files.

Definition treeMatches (table : list (string * list indicator))
  (entries : list TreeEntry) : list (string * string * indicator) :=
  path ← blobPaths entries; pathMatches table path.

Definition recordEvent (ecosystems : gmap string Ecosystem)
  (ev : string * string * indicator) : gmap string Ecosystem :=
  recordMatch ecosystems ev.1.1 ev.1.2 ev.2.

(** What the map [ecosystems] holds once the matches [evs] are recorded. *)
Definition recorded (evs : list (string * string * indicator))
  (ecosystems : gmap string Ecosystem) : Prop :=
  ∀ tag,
    match ecosystems !! tag with
    | Some eco =>
        Name eco = tag ∧ EcoType eco = tag
        ∧ (∃ dir ind, (tag, dir, ind) ∈ evs ∧ Confidence eco = confidence ind)
        ∧ ∀ dir ind, (tag, dir, ind) ∈ evs → (confidence ind <= Confidence eco)%Q
    | None => ∀ dir ind, (tag, dir, ind) ∉ evs
    end.


(** The trees of the examples. *)
Definition blob (path : string) : TreeEntry :=
  {| EntryType := Some "blob"; EntryPath := Some path |}.

Definition npmTree : list TreeEntry := [blob "package-lock.json"; blob "package.json"].


(** ** Inputs of the examples *)

Definition dailySchedule : Schedule :=
  {| Interval := "daily"; Day := ""; Time := ""; Timezone := "" |}.

(** A rule with the given ecosystem, directory, schedule and limit, every
    other field at its zero value. *)
Definition plainRule (ecosystem dir : string) (s : Schedule) (limit : Z)
  : DependabotUpdate :=
  withSchedule (setDirectory (blankUpdate ecosystem) dir) s limit.


(** A merger whose npm template holds two rules, the second without a
    limit of its own. *)
Definition twoRuleMerger : Merger :=
  {| templates :=
       {[ "npm" :=
            {| Version := 2;
               Updates := [plainRule "npm" "" weeklySchedule 5;
                           plainRule "npm" "" dailySchedule 0] |} ]};
     templatesDir := "" |}.

(** A merger with one-rule templates for npm and docker. *)
Definition orgMerger : Merger :=
  {| templates :=
       <["npm" := {| Version := 2; Updates := [preservationTemplate] |}]>
         {[ "docker" :=
              {| Version := 2;
                 Updates := [plainRule "docker" "" weeklySchedule 0] |} ]};
     templatesDir := "" |}.

Definition npmRoot : Ecosystem :=
  {| Name := "npm"; EcoType := "npm"; Directories := ["/"]; Confidence := 1 |}.

Definition npmMonorepo : Ecosystem :=
  {| Name := "npm"; EcoType := "npm";
     Directories := ["/"; "/packages/ui"]; Confidence := 1 |}.

Definition dockerRoot : Ecosystem :=
  {| Name := "docker"; EcoType := "docker"; Directories := ["/"];
     Confidence := 9 # 10 |}.


Definition gomodRoot : Ecosystem :=
  {| Name := "gomod"; EcoType := "gomod"; Directories := ["/"]; Confidence := 1 |}.

(** An existing document: an npm rule of the repository, two docker rules
    in different directories and a rule for an ecosystem outside the
    catalogue. *)
Definition repoConfig : DependabotConfig :=
  {| Version := 2;
     Updates := [preservationExisting;
                 plainRule "docker" "/services/api" dailySchedule 3;
                 plainRule "docker" "/services/web" dailySchedule 7;
                 plainRule "swift" "/ios" dailySchedule 4] |}.

Definition emptyConfig : DependabotConfig := {| Version := 2; Updates := [] |}.

(** Templates as [loadTemplates] is meant to find them: under each key at
    most one rule, for the ecosystem of that key. *)
Definition templatesWellFormed (m : Merger) : Prop :=
  ∀ key template,
    templates m !! key = Some template →
    (length (Updates template) ≤ 1)%nat
    ∧ Forall (fun tmplUpdate => PackageEcosystem tmplUpdate = key) (Updates template).

(** What the map [ecosystems] of [Detect] holds under each tag, as far as
    the merge engine reads it. *)
Definition located (ecosystems : gmap string Ecosystem) : Prop :=
  ∀ tag eco,
    ecosystems !! tag = Some eco →
    Name eco = tag ∧ EcoType eco = tag
    ∧ NoDup (Directories eco)
    ∧ (isRootOnlyEcosystem tag = true → Forall (fun dir => dir = "/") (Directories eco)).

(** ** Further notions used by the properties of the code *)

(** The test of [findUpdate] on one rule: the ecosystem is the one asked
    for and, unless it is root-only, so is the directory. *)
Definition ruleMatches (ecosystem directory : string) (u : DependabotUpdate) : Prop :=
  PackageEcosystem u = ecosystem
  ∧ (isRootOnlyEcosystem ecosystem = true ∨ Directory u = directory).

(** Has the merger a template for the detected ecosystem? *)
Definition hasTemplate (m : Merger) (eco : Ecosystem) : Prop :=
  is_Some (templates m !! Name eco).

(** The number of rules [createFromTemplates] makes for one detected
    ecosystem: for each directory, one per rule of the template, or the one
    basic rule when there is no template. *)
Definition createdCount (m : Merger) (eco : Ecosystem) : nat :=
  (length (Directories eco)
   * match templates m !! Name eco with
     | None => 1
     | Some template => length (Updates template)
     end)%nat.

(** A tree of a monorepo: npm manifests at the root and in a package, and a
    Dockerfile in a service directory. *)
Definition monorepoTree : list TreeEntry :=
  [blob "package.json"; blob "packages/ui/package.json"; blob "services/api/Dockerfile";
   {| EntryType := Some "tree"; EntryPath := Some "packages" |}].

(** The directory [Detect] records for a match of [ecosystem] in a file of
    directory [dir]. *)
Definition recordedDirectory (ecosystem dir : string) : string :=
  if scansFromRoot ecosystem then "/" else dir.

(** The directories the map [ecosystems] holds once the matches [evs] are
    recorded. *)
Definition directoriesRecorded (evs : list (string * string * indicator))
  (ecosystems : gmap string Ecosystem) : Prop :=
  ∀ tag,
    match ecosystems !! tag with
    | Some eco =>
        ∀ d, d ∈ Directories eco ↔
          ∃ dir ind, (tag, dir, ind) ∈ evs ∧ d = recordedDirectory tag dir
    | None => ∀ dir ind, (tag, dir, ind) ∉ evs
    end.

(** A file of the tree matches an indicator of the ecosystem [tag]. *)
Definition matchedIn (entries : list TreeEntry) (tag path : string) : Prop :=
  path ∈ blobPaths entries
  ∧ ∃ files ind, (tag, files) ∈ indicators ∧ ind ∈ files
      ∧ matchesPattern path (file ind) = true.

(** The weights of the table lie in (0, 1]. *)
Definition weightInRange (ind : indicator) : Prop :=
  (0 < confidence ind)%Q ∧ (confidence ind <= 1)%Q.

(** A [github.Repository], of which the program reads the name, the URL
    and the topics; [GetName] and [GetHTMLURL] give the empty string for a
    [nil] field. *)
Record Repository := {
  RepoName : option string;
  HTMLURL : option string;
  Topics : list string
}.

Definition GetName (repo : Repository) : string := default "" (RepoName repo).

Definition GetHTMLURL (repo : Repository) : string := default "" (HTMLURL repo).

Definition excludeTags : list string :=
  ["no-dependabot"; "skip-dependabot"; "exclude-dependabot"].

(** [func (d *Detector) HasExclusionTopic(ctx, repo) bool]: the two nested
    loops, leaving at the first topic equal to an exclusion tag. *)
Definition HasExclusionTopic (repo : Repository) : bool :=
  existsb (fun topic => existsb (fun exclude => (topic =? exclude)%string) excludeTags)
    (Topics repo).

(** What [Detect] finds in [monorepoTree]. *)
Definition npmManifests : Ecosystem :=
  {| Name := "npm"; EcoType := "npm";
     Directories := ["/"; "/packages/ui"]; Confidence := 8 # 10 |}.

Definition monorepoDetected : list Ecosystem := [dockerRoot; npmManifests].

(** ** Package [reporter]

    The counters are Go [int]s that are incremented, 64 bits wide on the
    platforms the program is built for: [wrapInt] is their wrap-around.
    A [time.Time] is the reading of the clock, an integer, handed to the
    function that reads the clock. Field names of the source that are taken
    already get a prefix: [Name], [Status], [Error], [URL] and [Topics] of
    [RepositoryDetail] are [DetailName], [DetailStatus], [DetailError],
    [DetailURL] and [DetailTopics]; the struct [Error] is [ReportError]; the
    fields [Summary] and [Timestamp] of [Report] are [ReportSummary] and
    [ReportTimestamp]; [reporter.New] is [NewReporter]. *)

Definition wrapInt (z : Z) : Z := (z + 2 ^ 63) mod 2 ^ 64 - 2 ^ 63.

(** [CoveragePercentage] is a [float64]: the zero value, or the value of
    [float64(num) / float64(den) * 100], kept as the two integers it is
    computed from. *)
Inductive percentage :=
  | ZeroPercentage
  | Percentage (num den : Z).

Record Summary := {
  TotalRepositories : Z;
  ProcessedRepositories : Z;
  ConfiguredRepositories : Z;
  UpdatedRepositories : Z;
  SkippedRepositories : Z;
  FailedRepositories : Z;
  CoveragePercentage : percentage;
  EcosystemBreakdown : gmap string Z
}.

Record RepositoryDetail := {
  DetailName : string;
  DetailStatus : string;
  DetectedEcosystems : list Ecosystem;
  HasExistingConfig : bool;
  ConfigUpdated : bool;
  SkipReason : string;
  DetailError : string;
  DetailURL : string;
  DetailTopics : list string
}.

Record ReportError := {
  ErrorRepository : string;
  ErrorMessage : string;
  ErrorTimestamp : Z
}.

(** [Duration] is the text of [time.Since(startTime)]: empty at first, then
    kept as the clock reading it was computed at. *)
Record Report := {
  ReportTimestamp : Z;
  Organization : string;
  ReportSummary : Summary;
  RepositoryDetails : list RepositoryDetail;
  Errors : list ReportError;
  Duration : option Z
}.

(** The field [report] is a pointer in the source; the functions below
    return the reporter with the report they leave. *)
Record Reporter := {
  startTime : Z;
  report : Report;
  outputDir : string;
  verboseOutput : bool
}.

Definition NewReporter (org outputDir : string) (verbose : bool) (now : Z) : Reporter :=
  {| startTime := now;
     report :=
       {| ReportTimestamp := now;
          Organization := org;
          ReportSummary :=
            {| TotalRepositories := 0;
               ProcessedRepositories := 0;
               ConfiguredRepositories := 0;
               UpdatedRepositories := 0;
               SkippedRepositories := 0;
               FailedRepositories := 0;
               CoveragePercentage := ZeroPercentage;
               EcosystemBreakdown := ∅ |};
          RepositoryDetails := [];
          Errors := [];
          Duration := None |};
     outputDir := outputDir;
     verboseOutput := verbose |}.

(** [r.report.Summary.EcosystemBreakdown[eco.Name]++], a missing key
    counting as 0. *)
Definition countEcosystem (breakdown : gmap string Z) (eco : Ecosystem) : gmap string Z :=
  <[Name eco := wrapInt (default 0 (breakdown !! Name eco) + 1)]> breakdown.

(** The [switch status] of [AddRepository] on the counters. *)
Definition countStatus (status : string) (s : Summary) : Summary :=
  let bump (which : string) (z : Z) : Z :=
    if (status =? which)%string then wrapInt (z + 1) else z in
  let named :=
    (status =? "configured")%string || (status =? "updated")%string
    || (status =? "skipped")%string || (status =? "failed")%string in
  {| TotalRepositories := TotalRepositories s;
     ProcessedRepositories :=
       if named then ProcessedRepositories s else wrapInt (ProcessedRepositories s + 1);
     ConfiguredRepositories := bump "configured" (ConfiguredRepositories s);
     UpdatedRepositories := bump "updated" (UpdatedRepositories s);
     SkippedRepositories := bump "skipped" (SkippedRepositories s);
     FailedRepositories := bump "failed" (FailedRepositories s);
     CoveragePercentage := CoveragePercentage s;
     EcosystemBreakdown := EcosystemBreakdown s |}.

(** [AddRepository]; [err] is [None] for a [nil] error and the text of
    [err.Error()] otherwise, [now] the clock read for the error's
    timestamp. *)
Definition AddRepository (r : Reporter) (repo : Repository) (ecosystems : list Ecosystem)
  (status skipReason : string) (err : option string) (now : Z) : Reporter :=
  let rep := report r in
  let detail :=
    {| DetailName := GetName repo;
       DetailStatus := status;
       DetectedEcosystems := ecosystems;
       HasExistingConfig := (status =? "configured")%string;
       ConfigUpdated := (status =? "updated")%string;
       SkipReason := skipReason;
       DetailError := default "" err;
       DetailURL := GetHTMLURL repo;
       DetailTopics := Topics repo |} in
  let errors :=
    match err with
    | Some message =>
        Errors rep ++ [{| ErrorRepository := GetName repo;
                          ErrorMessage := message;
                          ErrorTimestamp := now |}]
    | None => Errors rep
    end in
  let s := ReportSummary rep in
  let s :=
    {| TotalRepositories := wrapInt (TotalRepositories s + 1);
       ProcessedRepositories := ProcessedRepositories s;
       ConfiguredRepositories := ConfiguredRepositories s;
       UpdatedRepositories := UpdatedRepositories s;
       SkippedRepositories := SkippedRepositories s;
       FailedRepositories := FailedRepositories s;
       CoveragePercentage := CoveragePercentage s;
       EcosystemBreakdown := fold_left countEcosystem ecosystems (EcosystemBreakdown s) |} in
  {| startTime := startTime r;
     report :=
       {| ReportTimestamp := ReportTimestamp rep;
          Organization := Organization rep;
          ReportSummary := countStatus status s;
          RepositoryDetails := RepositoryDetails rep ++ [detail];
          Errors := errors;
          Duration := Duration rep |};
     outputDir := outputDir r;
     verboseOutput := verboseOutput r |}.

(** [hasExisting] is not read by the source. *)
Definition AddProcessedRepository (r : Reporter) (repo : Repository)
  (ecosystems : list Ecosystem) (hasExisting wasUpdated : bool) (now : Z) : Reporter :=
  let status := if wasUpdated then "updated" else "configured" in
  AddRepository r repo ecosystems status "" None now.

Definition AddSkippedRepository (r : Reporter) (repo : Repository) (reason : string)
  (now : Z) : Reporter :=
  AddRepository r repo [] "skipped" reason None now.

Definition AddFailedRepository (r : Reporter) (repo : Repository) (err : string)
  (now : Z) : Reporter :=
  AddRepository r repo [] "failed" "" (Some err) now.

(** [Finalize]; [now] is the clock read by [time.Since]. *)
Definition Finalize (r : Reporter) (now : Z) : Reporter :=
  let rep := report r in
  let s := ReportSummary rep in
  {| startTime := startTime r;
     report :=
       {| ReportTimestamp := ReportTimestamp rep;
          Organization := Organization rep;
          ReportSummary :=
            {| TotalRepositories := TotalRepositories s;
               ProcessedRepositories :=
                 wrapInt (wrapInt (TotalRepositories s - SkippedRepositories s)
                          - FailedRepositories s);
               ConfiguredRepositories := ConfiguredRepositories s;
               UpdatedRepositories := UpdatedRepositories s;
               SkippedRepositories := SkippedRepositories s;
               FailedRepositories := FailedRepositories s;
               CoveragePercentage :=
                 if 0 <? TotalRepositories s
                 then Percentage
                        (wrapInt (ConfiguredRepositories s + UpdatedRepositories s))
                        (TotalRepositories s)
                 else CoveragePercentage s;
               EcosystemBreakdown := EcosystemBreakdown s |};
          RepositoryDetails := RepositoryDetails rep;
          Errors := Errors rep;
          Duration := Some now |};
     outputDir := outputDir r;
     verboseOutput := verboseOutput r |}.

Definition filterByStatus (r : Reporter) (status : string) : list RepositoryDetail :=
  fold_left
    (fun filtered repo =>
       if (DetailStatus repo =? status)%string then filtered ++ [repo] else filtered)
    (RepositoryDetails (report r)) [].

(** The reporters the program can reach: a new one, and the ones left by
    [AddRepository] and the three functions that call it. *)
Inductive reachable : Reporter → Prop :=
  | reachable_new org dir verbose now :
      reachable (NewReporter org dir verbose now)
  | reachable_add r repo ecosystems status skipReason err now :
      reachable r →
      reachable (AddRepository r repo ecosystems status skipReason err now).

(** How many details of the report have the given status. *)
Definition statusCount (r : Reporter) (status : string) : Z :=
  Z.of_nat (length (filter (fun d => DetailStatus d = status)
                      (RepositoryDetails (report r)))).

(** How many of the details have none of the four statuses the program
    uses. *)
Definition otherCount (r : Reporter) : Z :=
  Z.of_nat (length (filter
                      (fun d => DetailStatus d ≠ "configured" ∧ DetailStatus d ≠ "updated"
                                ∧ DetailStatus d ≠ "skipped" ∧ DetailStatus d ≠ "failed")
                      (RepositoryDetails (report r)))).

(** How often an ecosystem of the given name was detected, over all the
    repositories of the report. *)
Definition detectedCount (r : Reporter) (name : string) : Z :=
  Z.of_nat (length (filter (fun eco => Name eco = name)
                      (RepositoryDetails (report r) ≫= DetectedEcosystems))).

(** How many of the details are neither skipped nor failed. *)
Definition handledCount (r : Reporter) : Z :=
  Z.of_nat (length (filter
                      (fun d => DetailStatus d ≠ "skipped" ∧ DetailStatus d ≠ "failed")
                      (RepositoryDetails (report r)))).

(** A repository and a report of the examples. *)
Definition webRepo : Repository :=
  {| RepoName := Some "web"; HTMLURL := Some "https://github.com/acme/web";
     Topics := ["frontend"] |}.

Definition legacyRepo : Repository :=
  {| RepoName := Some "legacy"; HTMLURL := None; Topics := ["skip-dependabot"] |}.

Definition sampleReporter : Reporter :=
  AddFailedRepository
    (AddSkippedRepository
       (AddProcessedRepository (NewReporter "acme" "./reports" false 100)
          webRepo monorepoDetected true true 110)
       legacyRepo "has exclusion topic" 120)
    webRepo "failed to get tree: timeout" 130.

(** ** Package [main]: processing one repository

    What the collaborators answer for one repository: the tree [GetTree]
    returns ([None] when it fails, [treeError] being then the text of its
    error), the order in which [Detect] visits its map, what
    [GetExistingConfig] returns (the text of its error, or the configuration,
    [None] when the repository has none), the error of [applyConfiguration]
    if it is called ([None] when it succeeds) and the clock. *)
Record world := {
  tree : option (list TreeEntry);
  treeError : string;
  iteration : list string;
  existingResult : string + option DependabotConfig;
  applyResult : option string;
  clock : Z
}.

Definition isPresent (existing : option DependabotConfig) : bool :=
  match existing with Some _ => true | None => false end.

(** [processRepository], for one repository, without what it prints and
    without the wait group and the semaphore around it: the reporter it
    leaves, and the configuration it hands to [applyConfiguration], [None]
    when it does not call it. *)
Definition processRepository (m : Merger) (dryRun : bool) (w : world) (rep : Reporter)
  (repo : Repository) : Reporter * option DependabotConfig :=
  if HasExclusionTopic repo
  then (AddSkippedRepository rep repo "has exclusion topic" (clock w), None)
  else
    match Detect (iteration w) (tree w) with
    | None =>
        (AddFailedRepository rep repo ("failed to get tree: " +:+ treeError w) (clock w),
         None)
    | Some ecosystems =>
        if (length ecosystems =? 0)%nat
        then (AddSkippedRepository rep repo "no supported ecosystems detected" (clock w),
              None)
        else
          match existingResult w with
          | inl err => (AddFailedRepository rep repo err (clock w), None)
          | inr existingConfig =>
              let mergedConfig := Merge m existingConfig ecosystems in
              if isPresent existingConfig && Equal existingConfig (Some mergedConfig)
              then (AddProcessedRepository rep repo ecosystems true false (clock w), None)
              else if negb dryRun then
                match applyResult w with
                | Some err =>
                    (AddFailedRepository rep repo err (clock w), Some mergedConfig)
                | None =>
                    (AddProcessedRepository rep repo ecosystems
                       (isPresent existingConfig) true (clock w),
                     Some mergedConfig)
                end
              else
                (AddProcessedRepository rep repo ecosystems
                   (isPresent existingConfig) true (clock w),
                 None)
          end
    end.


(** The same repository before that run. *)
Definition firstWorld : world :=
  {| tree := Some monorepoTree;
     treeError := "";
     iteration := ecosystemTags;
     existingResult := inr (Some repoConfig);
     applyResult := None;
     clock := 140 |}.

(** ** Package [merger]: loading the templates

    [os.ReadFile] and [yaml.Unmarshal] are the collaborators: [readFile]
    gives the content of the file at a path, [None] when it cannot be read,
    and [unmarshal] the configuration a content decodes to, or the text of
    the decoding error. *)

Definition templateEcosystems : list string :=
  ["npm"; "golang"; "python"; "docker"; "maven"; "gradle"; "bundler"; "cargo";
   "composer"; "nuget"; "github-actions"].

(** [filepath.Join], from the library's documentation: the elements from
    the first non-empty one on, joined by the separator and cleaned; the
    empty string when all are empty. *)
Fixpoint fromFirstNonEmpty (elems : list string) : list string :=
  match elems with
  | [] => []
  | e :: rest => if (e =? "")%string then fromFirstNonEmpty rest else elems
  end.

Definition filepath_Join (elems : list string) : string :=
  match fromFirstNonEmpty elems with
  | [] => ""
  | elems' => filepath_Clean (joinSlash elems')
  end.

Definition templatePath (templatesDir eco : string) : string :=
  filepath_Join [templatesDir; eco; "default.yml"].

(** "Map ecosystem names": the key a template is stored under. *)
Definition templateKey (eco : string) : string :=
  if (eco =? "golang")%string then "gomod" else eco.

(** One turn of the loop of [loadTemplates]; the accumulator is the map
    [m.templates], or the error the function has returned with. *)
Definition loadTemplate (readFile : string → option string)
  (unmarshal : string → string + DependabotConfig) (dir : string)
  (acc : string + gmap string DependabotConfig) (eco : string)
  : string + gmap string DependabotConfig :=
  match acc with
  | inl err => inl err
  | inr loaded =>
      match readFile (templatePath dir eco) with
      | None => inr loaded
      | Some data =>
          match unmarshal data with
          | inl err => inl ("failed to parse " +:+ eco +:+ " template: " +:+ err)
          | inr tmpl => inr (<[templateKey eco := tmpl]> loaded)
          end
      end
  end.

Definition loadTemplates (readFile : string → option string)
  (unmarshal : string → string + DependabotConfig) (m : Merger)
  : string + gmap string DependabotConfig :=
  fold_left (loadTemplate readFile unmarshal (templatesDir m)) templateEcosystems
    (inr (templates m)).

(** [merger.New]. *)
Definition New (readFile : string → option string)
  (unmarshal : string → string + DependabotConfig) (dir : string) : string + Merger :=
  match loadTemplates readFile unmarshal {| templates := ∅; templatesDir := dir |} with
  | inl err => inl ("failed to load templates: " +:+ err)
  | inr loaded => inr {| templates := loaded; templatesDir := dir |}
  end.

(** The template of [eco] is there, and decodes to [tmpl]. *)
Definition loads (readFile : string → option string)
  (unmarshal : string → string + DependabotConfig) (dir eco : string)
  (tmpl : DependabotConfig) : Prop :=
  ∃ data, readFile (templatePath dir eco) = Some data ∧ unmarshal data = inr tmpl.

(** The template of [eco] is there, and does not decode. *)
Definition corrupt (readFile : string → option string)
  (unmarshal : string → string + DependabotConfig) (dir eco : string) : Prop :=
  ∃ data err, readFile (templatePath dir eco) = Some data ∧ unmarshal data = inl err.

(** The tags of [Detect] for which [loadTemplates] can store a template. *)
Definition templatedTags : list string :=
  ["npm"; "gomod"; "docker"; "maven"; "gradle"; "bundler"; "cargo"; "composer";
   "nuget"; "github-actions"].

(** A template directory of the examples: a template for npm and one for
    python, and a decoder that knows these two contents. *)
Definition sampleFiles (path : string) : option string :=
  if (path =? "configs/npm/default.yml")%string then Some "npm-template"
  else if (path =? "configs/python/default.yml")%string then Some "python-template"
  else None.

Definition sampleDecoder (data : string) : string + DependabotConfig :=
  if (data =? "npm-template")%string
  then inr {| Version := 2; Updates := [preservationTemplate] |}
  else if (data =? "python-template")%string
  then inr {| Version := 2; Updates := [plainRule "pip" "/" weeklySchedule 5] |}
  else inl "yaml: cannot decode".

(** * Properties *)

(** ** String comparison *)

Lemma string_eqb_true (a b : string) : (a =? b)%string = true ↔ a = b.
Proof. apply String.eqb_eq. Qed.

Lemma string_eqb_false (a b : string) : (a =? b)%string = false ↔ a ≠ b.
Proof. apply String.eqb_neq. Qed.

Lemma string_eqb_refl (a : string) : (a =? a)%string = true.
Proof. by apply String.eqb_eq. Qed.

Lemma string_ltb_lt (a b : string) : (a <? b)%string = true ↔ String_as_OT.lt a b.
Proof.
  unfold String.ltb, String_as_OT.lt.
  change (String_as_OT.compare a b) with (String.compare a b).
  by destruct (String.compare a b).
Qed.

Lemma string_ltb_irrefl (a : string) : (a <? a)%string = false.
Proof.
  destruct (a <? a)%string eqn:H; [|done].
  apply string_ltb_lt in H. by apply (irreflexivity String_as_OT.lt) in H.
Qed.

Lemma string_ltb_trans (a b c : string) :
  (a <? b)%string = true → (b <? c)%string = true → (a <? c)%string = true.
Proof.
  rewrite !string_ltb_lt. apply (transitivity (R := String_as_OT.lt)).
Qed.

Lemma string_ltb_leb (a b : string) : (a <? b)%string = true → (a <=? b)%string = true.
Proof. unfold String.ltb, String.leb. by destruct (String.compare a b). Qed.

Lemma string_nltb_leb (a b : string) : (a <? b)%string = false → (b <=? a)%string = true.
Proof.
  unfold String.ltb, String.leb. rewrite (String.compare_antisym a b).
  by destruct (String.compare b a).
Qed.

Lemma string_leb_cases (a b : string) :
  (a <=? b)%string = true ↔ (a <? b)%string = true ∨ a = b.
Proof.
  unfold String.ltb, String.leb. destruct (String.compare a b) eqn:Hc; split; try done.
  - intros _. right. by apply String.compare_eq_iff.
  - by left.
  - intros [H | ->]; [done|]. pose proof Hc as Hc'.
    rewrite String.compare_antisym, Hc in Hc'. done.
Qed.

Lemma string_leb_refl (a : string) : (a <=? a)%string = true.
Proof. apply string_leb_cases. by right. Qed.

Lemma string_leb_trans (a b c : string) :
  (a <=? b)%string = true → (b <=? c)%string = true → (a <=? c)%string = true.
Proof.
  rewrite !string_leb_cases. intros [Hab| ->] [Hbc| ->]; eauto using string_ltb_trans.
Qed.

Lemma string_ltb_asym (a b : string) :
  (a <? b)%string = true → (b <? a)%string = true → False.
Proof.
  intros Hab Hba. pose proof (string_ltb_trans _ _ _ Hab Hba) as H.
  by rewrite string_ltb_irrefl in H.
Qed.

(** ** The equality predicate of the configuration model *)

Lemma UpdateEqual_fields (u v : DependabotUpdate) :
  UpdateEqual u v = true ↔ comparedFields u = comparedFields v.
Proof.
  unfold UpdateEqual, comparedFields. split.
  - destruct (PackageEcosystem u =? PackageEcosystem v)%string eqn:He; [|done].
    destruct (Directory u =? Directory v)%string eqn:Hd; [|done].
    destruct (Interval (UpdateSchedule u) =? Interval (UpdateSchedule v))%string
      eqn:Hi; [|done].
    destruct (OpenPullRequestsLimit u =? OpenPullRequestsLimit v) eqn:Hl; [|done].
    intros _. apply string_eqb_true in He, Hd, Hi. apply Z.eqb_eq in Hl.
    by rewrite He, Hd, Hi, Hl.
  - intros [= -> -> -> ->]. by rewrite !string_eqb_refl, Z.eqb_refl.
Qed.

Lemma updatesEqual_fields (us vs : list DependabotUpdate) :
  length us = length vs →
  updatesEqual us vs = true ↔ comparedFields <$> us = comparedFields <$> vs.
Proof.
  revert vs. induction us as [|u us IH]; intros [|v vs] Hlen; simplify_eq/=; [done|].
  destruct (UpdateEqual u v) eqn:Huv; simpl.
  - apply UpdateEqual_fields in Huv. rewrite IH by done. rewrite Huv.
    split; [by intros ->|by intros [= ->]].
  - split; [done|]. intros Heq. apply (f_equal head) in Heq. simpl in Heq.
    assert (comparedFields u = comparedFields v) as Hf by congruence.
    apply UpdateEqual_fields in Hf. congruence.
Qed.

Lemma Equal_fields (c o : DependabotConfig) :
  Equal (Some c) (Some o) = true ↔
  Version c = Version o ∧ comparedFields <$> Updates c = comparedFields <$> Updates o.
Proof.
  unfold Equal.
  destruct (Version c =? Version o) eqn:Hv; simpl.
  - apply Z.eqb_eq in Hv.
    destruct (length (Updates c) =? length (Updates o))%nat eqn:Hl; simpl.
    + apply Nat.eqb_eq in Hl. rewrite updatesEqual_fields by done. naive_solver.
    + apply Nat.eqb_neq in Hl. split; [done|]. intros [_ Hf]. destruct Hl.
      by rewrite <-(length_fmap comparedFields (Updates c)), Hf, length_fmap.
  - apply Z.eqb_neq in Hv. naive_solver.
Qed.

(** ** Union of string slices *)

Lemma firstSeen_elem_of (l : list string) (x : string) : x ∈ firstSeen l ↔ x ∈ l.
Proof.
  induction l as [|y l IH]; simpl; [done|].
  rewrite !elem_of_cons, list_elem_of_filter, IH.
  destruct (decide (x = y)); naive_solver.
Qed.

Lemma firstSeen_NoDup (l : list string) : NoDup (firstSeen l).
Proof.
  induction l as [|y l IH]; simpl; [constructor|].
  apply NoDup_cons. split; [|by apply NoDup_filter].
  rewrite list_elem_of_filter. naive_solver.
Qed.

Lemma firstSeen_app (a b : list string) :
  firstSeen (a ++ b) = firstSeen a ++ filter (fun x => x ∉ a) (firstSeen b).
Proof.
  induction a as [|y a IH]; simpl.
  - symmetry. induction (firstSeen b) as [|z l IHl]; [done|].
    rewrite filter_cons_True by apply not_elem_of_nil. by f_equal.
  - f_equal. rewrite IH, filter_app. f_equal.
    rewrite list_filter_filter. apply list_filter_iff.
    intros x. rewrite not_elem_of_cons. naive_solver.
Qed.

Lemma appendUnseen_fold (l : list string) (seen : gset string) (result : list string) :
  (fold_left appendUnseen l (seen, result)).2
  = result ++ filter (fun x => x ∉ seen) (firstSeen l).
Proof.
  revert seen result. induction l as [|y l IH]; intros seen result; simpl.
  - by rewrite app_nil_r.
  - case_bool_decide as Hy.
    + rewrite IH. f_equal. rewrite filter_cons_False by naive_solver.
      rewrite list_filter_filter. apply list_filter_iff. set_solver.
    + rewrite IH, <-app_assoc. f_equal. simpl.
      rewrite filter_cons_True by done. f_equal.
      rewrite list_filter_filter. apply list_filter_iff. set_solver.
Qed.

Lemma mergeStringSlices_firstSeen (a b : list string) :
  mergeStringSlices a b = firstSeen (a ++ b).
Proof.
  unfold mergeStringSlices. rewrite <-fold_left_app.
  rewrite appendUnseen_fold. simpl.
  induction (firstSeen (a ++ b)) as [|z l IHl]; [done|].
  rewrite filter_cons_True by set_solver. by f_equal.
Qed.

(** ** Sorting of the update rules *)

Lemma updateLess_ruleLe (u v : DependabotUpdate) : updateLess u v = true → ruleLe u v.
Proof.
  unfold updateLess, ruleLe.
  destruct (PackageEcosystem u =? PackageEcosystem v)%string eqn:He; simpl.
  - apply string_eqb_true in He. intros Hd. right. eauto using string_ltb_leb.
  - by left.
Qed.

Lemma not_updateLess_ruleLe (u v : DependabotUpdate) : updateLess u v = false → ruleLe v u.
Proof.
  unfold updateLess, ruleLe.
  destruct (PackageEcosystem u =? PackageEcosystem v)%string eqn:He; simpl.
  - apply string_eqb_true in He. intros Hd. right. eauto using string_nltb_leb.
  - apply string_eqb_false in He. intros Hlt. left.
    apply string_nltb_leb, string_leb_cases in Hlt. naive_solver.
Qed.

#[local] Instance ruleLe_trans : Transitive ruleLe.
Proof.
  intros u v w [Huv|[Huv Hd1]] [Hvw|[Hvw Hd2]]; unfold ruleLe.
  - left. eauto using string_ltb_trans.
  - left. by rewrite <-Hvw.
  - left. by rewrite Huv.
  - right. split; [congruence|]. eauto using string_leb_trans.
Qed.

Lemma ruleLe_antisym (u v : DependabotUpdate) :
  ruleLe u v → ruleLe v u →
  PackageEcosystem u = PackageEcosystem v ∧ Directory u = Directory v.
Proof.
  intros [Huv|[Huv Hd1]] [Hvu|[Hvu Hd2]].
  - destruct (string_ltb_asym _ _ Huv Hvu).
  - rewrite Hvu, string_ltb_irrefl in Huv. done.
  - rewrite Huv, string_ltb_irrefl in Hvu. done.
  - split; [done|]. by apply String.leb_antisym.
Qed.

Lemma insertUpdate_Permutation (x : DependabotUpdate) (l : list DependabotUpdate) :
  insertUpdate x l ≡ₚ x :: l.
Proof.
  induction l as [|y l IH]; simpl; [done|].
  destruct (updateLess x y); [done|]. by rewrite IH, Permutation_swap.
Qed.

Lemma insertUpdate_Sorted (x : DependabotUpdate) (l : list DependabotUpdate) :
  Sorted ruleLe l → Sorted ruleLe (insertUpdate x l).
Proof.
  induction 1 as [|y l Hl IH Hy]; simpl.
  - repeat constructor.
  - destruct (updateLess x y) eqn:Hxy.
    + constructor; [by constructor|]. constructor. by apply updateLess_ruleLe.
    + constructor; [done|]. apply not_updateLess_ruleLe in Hxy.
      destruct Hy as [|z l Hyz]; simpl; [by constructor|].
      destruct (updateLess x z); by constructor.
Qed.

Lemma sortUpdates_fold (l acc : list DependabotUpdate) :
  Sorted ruleLe acc →
  Sorted ruleLe (fold_left (fun sorted x => insertUpdate x sorted) l acc)
  ∧ fold_left (fun sorted x => insertUpdate x sorted) l acc ≡ₚ acc ++ l.
Proof.
  revert acc. induction l as [|x l IH]; intros acc Hacc; simpl.
  - by rewrite app_nil_r.
  - destruct (IH (insertUpdate x acc)) as [Hs Hp]; [by apply insertUpdate_Sorted|].
    split; [done|]. rewrite Hp, insertUpdate_Permutation.
    by rewrite (Permutation_middle acc l x).
Qed.

Lemma sortUpdates_Permutation (l : list DependabotUpdate) : sortUpdates l ≡ₚ l.
Proof. unfold sortUpdates. by destruct (sortUpdates_fold l []) as [_ ->]; [constructor|]. Qed.

Lemma sortUpdates_StronglySorted (l : list DependabotUpdate) :
  StronglySorted ruleLe (sortUpdates l).
Proof.
  apply Sorted_StronglySorted; [apply _|].
  unfold sortUpdates. by destruct (sortUpdates_fold l []) as [? _]; [constructor|].
Qed.

Lemma sortUpdates_elem_of (l : list DependabotUpdate) (u : DependabotUpdate) :
  u ∈ sortUpdates l ↔ u ∈ l.
Proof. by rewrite sortUpdates_Permutation. Qed.

(** ** The loops of the merge engine as list expressions *)

Lemma fold_left_snoc_bind {A B} (g : A → list B) (step : list B → A → list B)
    (l : list A) (acc : list B) :
  (∀ acc x, step acc x = acc ++ g x) →
  fold_left step l acc = acc ++ (l ≫= g).
Proof.
  intros Hstep. revert acc. induction l as [|x l IH]; intros acc; simpl.
  - by rewrite app_nil_r.
  - by rewrite IH, Hstep, <-app_assoc.
Qed.

Lemma fold_left_snoc_fmap {A B} (f : A → B) (l : list A) (acc : list B) :
  fold_left (fun acc x => acc ++ [f x]) l acc = acc ++ (f <$> l).
Proof.
  revert acc. induction l as [|x l IH]; intros acc; simpl.
  - by rewrite app_nil_r.
  - by rewrite IH, <-app_assoc.
Qed.

Lemma createStep_rules (m : Merger) (acc : list DependabotUpdate) (eco : Ecosystem) :
  createStep m acc eco = acc ++ createRules m eco.
Proof.
  unfold createStep, createRules. destruct (templates m !! Name eco) as [t|].
  - apply fold_left_snoc_bind. intros acc' dir. apply fold_left_snoc_fmap.
  - apply fold_left_snoc_fmap.
Qed.

Lemma mergeStep_rules (m : Merger) (existing : DependabotConfig)
    (acc : list DependabotUpdate) (eco : Ecosystem) :
  mergeStep m existing acc eco = acc ++ mergeRules m existing eco.
Proof.
  unfold mergeStep, mergeRules. destruct (templates m !! Name eco) as [t|].
  - apply fold_left_snoc_bind. intros acc' dir.
    destruct (findUpdate _ _ _); apply fold_left_snoc_fmap.
  - by rewrite app_nil_r.
Qed.

Lemma createFromTemplates_rules (m : Merger) (ecosystems : list Ecosystem) :
  Updates (createFromTemplates m ecosystems)
  = sortUpdates (ecosystems ≫= createRules m).
Proof.
  unfold createFromTemplates. simpl. f_equal.
  rewrite (fold_left_snoc_bind (createRules m)); [done|]. apply createStep_rules.
Qed.

Lemma processDetected_rules (m : Merger) (existing : DependabotConfig)
    (ecosystems : list Ecosystem) :
  processDetected m existing ecosystems = ecosystems ≫= mergeRules m existing.
Proof.
  unfold processDetected.
  rewrite (fold_left_snoc_bind (mergeRules m existing)); [done|]. apply mergeStep_rules.
Qed.

(** ** [findUpdate] and the identity of rules *)

Lemma isRootOnlyEcosystem_cases (e : string) :
  isRootOnlyEcosystem e = true ↔
  e = "github-actions" ∨ e = "docker" ∨ e = "terraform" ∨ e = "gitsubmodule".
Proof.
  unfold isRootOnlyEcosystem, rootOnlyEcosystems.
  rewrite !lookup_insert, lookup_empty.
  repeat case_decide; simpl; naive_solver.
Qed.

Lemma covers_identity (e u : DependabotUpdate) :
  covers e u = true ↔ identity u = identity e.
Proof.
  unfold covers, identity.
  destruct (isRootOnlyEcosystem (PackageEcosystem e)) eqn:Hr.
  - rewrite string_eqb_true. split.
    + intros He. by rewrite He, Hr.
    + by intros [= -> _].
  - rewrite andb_true_iff, !string_eqb_true. split.
    + intros [He Hd]. by rewrite He, Hr, Hd.
    + intros Hid. assert (PackageEcosystem u = PackageEcosystem e) as He by congruence.
      rewrite He, Hr in Hid. split; congruence.
Qed.

Lemma existsb_covers (e : DependabotUpdate) (l : list DependabotUpdate) :
  existsb (covers e) l = true ↔ identity e ∈ identity <$> l.
Proof.
  rewrite existsb_exists, list_elem_of_fmap. split.
  - intros (u & Hu & Hc). exists u. apply covers_identity in Hc.
    by rewrite <-list_elem_of_In in Hu.
  - intros (u & Hid & Hu). exists u. rewrite <-list_elem_of_In.
    split; [done|]. by apply covers_identity.
Qed.

Lemma normalizeRootOnly_ecosystem (u : DependabotUpdate) :
  PackageEcosystem (normalizeRootOnly u) = PackageEcosystem u.
Proof. unfold normalizeRootOnly. by destruct (isRootOnlyEcosystem _). Qed.

Lemma normalizeRootOnly_identity (u : DependabotUpdate) :
  identity (normalizeRootOnly u) = identity u.
Proof.
  unfold identity. rewrite normalizeRootOnly_ecosystem. unfold normalizeRootOnly.
  by destruct (isRootOnlyEcosystem _).
Qed.

Lemma normalizeRootOnly_directory (u : DependabotUpdate) :
  isRootOnlyEcosystem (PackageEcosystem u) = true →
  Directory (normalizeRootOnly u) = "/".
Proof. unfold normalizeRootOnly. by intros ->. Qed.

Lemma normalizeRootOnly_id (u : DependabotUpdate) :
  (isRootOnlyEcosystem (PackageEcosystem u) = true → Directory u = "/") →
  normalizeRootOnly u = u.
Proof.
  unfold normalizeRootOnly. destruct (isRootOnlyEcosystem _); [|done].
  intros Hd. destruct u; simpl in *. by rewrite Hd.
Qed.

Lemma findUpdate_Some (updates : list DependabotUpdate) (ecosystem directory : string)
    (u : DependabotUpdate) :
  findUpdate updates ecosystem directory = Some u →
  u ∈ updates ∧ PackageEcosystem u = ecosystem
  ∧ (isRootOnlyEcosystem ecosystem = true ∨ Directory u = directory).
Proof.
  induction updates as [|v updates IH]; simpl; [done|].
  fold (isRootOnlyEcosystem ecosystem).
  destruct (PackageEcosystem v =? ecosystem)%string eqn:He.
  - apply string_eqb_true in He.
    destruct (isRootOnlyEcosystem ecosystem) eqn:Hr.
    + intros [= <-]. split; [left|]. naive_solver.
    + destruct (Directory v =? directory)%string eqn:Hd.
      * apply string_eqb_true in Hd. intros [= <-]. split; [left|]. naive_solver.
      * intros H. destruct (IH H) as (? & ? & ?). split; [by right|done].
  - intros H. destruct (IH H) as (? & ? & ?). split; [by right|done].
Qed.

Lemma findUpdate_None (updates : list DependabotUpdate) (ecosystem directory : string)
    (u : DependabotUpdate) :
  findUpdate updates ecosystem directory = None →
  u ∈ updates → PackageEcosystem u = ecosystem →
  isRootOnlyEcosystem ecosystem = false ∧ Directory u ≠ directory.
Proof.
  induction updates as [|v updates IH]; simpl; [by intros _ ?%elem_of_nil|].
  fold (isRootOnlyEcosystem ecosystem).
  intros Hfind Hin Heco. apply elem_of_cons in Hin as [->|Hin].
  - apply string_eqb_true in Heco. rewrite Heco in Hfind.
    destruct (isRootOnlyEcosystem ecosystem); [done|].
    destruct (Directory v =? directory)%string eqn:Hd; [done|].
    by apply string_eqb_false in Hd.
  - apply IH; [|done..].
    destruct (PackageEcosystem v =? ecosystem)%string; [|done].
    destruct (isRootOnlyEcosystem ecosystem); [done|].
    by destruct (Directory v =? directory)%string.
Qed.

(** ** The carry-forward loop *)

Lemma carryStep_cases (acc : list DependabotUpdate) (x : DependabotUpdate) :
  (identity x ∈ identity <$> acc ∧ carryStep acc x = acc)
  ∨ ((identity x ∉ identity <$> acc) ∧ carryStep acc x = acc ++ [normalizeRootOnly x]).
Proof.
  unfold carryStep. destruct (existsb (covers x) acc) eqn:Hc.
  - left. by apply existsb_covers in Hc.
  - right. split; [|done]. rewrite <-existsb_covers. by rewrite Hc.
Qed.

Lemma carry_incl (E acc : list DependabotUpdate) (u : DependabotUpdate) :
  u ∈ acc → u ∈ fold_left carryStep E acc.
Proof.
  revert acc. induction E as [|x E IH]; intros acc Hu; simpl; [done|].
  apply IH. destruct (carryStep_cases acc x) as [[_ ->]|[_ ->]]; [done|].
  apply elem_of_app. by left.
Qed.

Lemma carry_elem_of (E acc : list DependabotUpdate) (u : DependabotUpdate) :
  u ∈ fold_left carryStep E acc →
  u ∈ acc ∨ ∃ x, x ∈ E ∧ u = normalizeRootOnly x.
Proof.
  revert acc. induction E as [|x E IH]; intros acc; simpl; [by left|].
  intros Hu. apply IH in Hu as [Hu|(y & Hy & ->)].
  - destruct (carryStep_cases acc x) as [[_ Hs]|[_ Hs]]; rewrite Hs in Hu; [by left|].
    apply elem_of_app in Hu as [Hu|Hu]; [by left|].
    apply list_elem_of_singleton in Hu as ->. right. exists x. split; [left|done].
  - right. exists y. split; [by right|done].
Qed.

Lemma carry_covered (E acc : list DependabotUpdate) (x : DependabotUpdate) :
  x ∈ E → identity x ∈ identity <$> fold_left carryStep E acc.
Proof.
  revert acc. induction E as [|y E IH]; intros acc; simpl; [by intros ?%elem_of_nil|].
  intros [->|Hx]%elem_of_cons; [|by apply IH].
  destruct (carryStep_cases acc y) as [[Hin Hs]|[_ Hs]]; rewrite Hs.
  - apply list_elem_of_fmap in Hin as (u & Hid & Hu). rewrite Hid.
    apply list_elem_of_fmap_2. by apply carry_incl.
  - rewrite <-(normalizeRootOnly_identity y). apply list_elem_of_fmap_2.
    apply carry_incl, elem_of_app. right. by apply list_elem_of_singleton.
Qed.


Lemma carry_NoDup (E acc : list DependabotUpdate) :
  NoDup (identity <$> acc) → NoDup (identity <$> fold_left carryStep E acc).
Proof.
  revert acc. induction E as [|x E IH]; intros acc Hacc; simpl; [done|].
  apply IH. destruct (carryStep_cases acc x) as [[_ ->]|[Hnin ->]]; [done|].
  rewrite fmap_app. apply NoDup_app. split_and!; [done| |apply NoDup_singleton].
  intros k Hk. simpl. rewrite list_elem_of_singleton, normalizeRootOnly_identity.
  by intros ->.
Qed.

Lemma Merge_existing_updates (m : Merger) (E : DependabotConfig) (D : list Ecosystem) :
  Updates (Merge m (Some E) D)
  = sortUpdates (fold_left carryStep (Updates E) (D ≫= mergeRules m E)).
Proof. simpl. unfold carryForward. by rewrite processDetected_rules. Qed.

Lemma Merge_absent_updates (m : Merger) (D : list Ecosystem) :
  Updates (Merge m None D) = sortUpdates (D ≫= createRules m).
Proof. apply createFromTemplates_rules. Qed.

(** ** The rules generated for well-formed detections *)

Lemma NoDup_fmap_eq {A B} (f : A → B) (l : list A) (x y : A) :
  NoDup (f <$> l) → x ∈ l → y ∈ l → f x = f y → x = y.
Proof.
  induction l as [|z l IH]; simpl; [by intros _ ?%elem_of_nil|].
  rewrite NoDup_cons. intros [Hz Hl].
  intros [->|Hx]%elem_of_cons [->|Hy]%elem_of_cons Hf; [done| | |by apply IH].
  - destruct Hz. rewrite Hf. by apply list_elem_of_fmap_2.
  - destruct Hz. rewrite <-Hf. by apply list_elem_of_fmap_2.
Qed.

Lemma bind_nil_const {A B} (l : list A) : l ≫= (fun _ => @nil B) = [].
Proof. by induction l. Qed.

Lemma bind_singleton_fmap {A B} (h : A → B) (g : A → list B) (l : list A) :
  (∀ x, g x = [h x]) → l ≫= g = h <$> l.
Proof.
  intros Hg. induction l as [|x l IH]; [done|].
  by rewrite bind_cons, fmap_cons, Hg, IH.
Qed.

(** The identity of the rule made for directory [dir] of ecosystem [eco]. *)
Lemma detectionKey_inj (eco : Ecosystem) (d1 d2 : string) :
  (isRootOnlyEcosystem (EcoType eco) = true →
   Forall (fun dir => dir = "/") (Directories eco)) →
  d1 ∈ Directories eco → d2 ∈ Directories eco →
  (if isRootOnlyEcosystem (EcoType eco) then "/" else d1)
  = (if isRootOnlyEcosystem (EcoType eco) then "/" else d2) →
  d1 = d2.
Proof.
  intros Hroot H1 H2. destruct (isRootOnlyEcosystem (EcoType eco)); [|done].
  intros _. specialize (Hroot eq_refl). rewrite Forall_forall in Hroot.
  by rewrite (Hroot d1), (Hroot d2).
Qed.

Lemma wellFormedEcosystem_root (m : Merger) (eco : Ecosystem) (dir : string) :
  wellFormedEcosystem m eco → dir ∈ Directories eco →
  (if isRootOnlyEcosystem (EcoType eco) then "/" else dir) = dir.
Proof.
  intros (_ & Hroot & _) Hdir. destruct (isRootOnlyEcosystem (EcoType eco)); [|done].
  specialize (Hroot eq_refl). rewrite Forall_forall in Hroot. by rewrite (Hroot dir).
Qed.

Lemma createRules_shape (m : Merger) (eco : Ecosystem) :
  wellFormedEcosystem m eco → generatedShape m eco (createRules m eco).
Proof.
  intros Hwf. pose proof Hwf as (_ & _ & Htmpl). unfold createRules, generatedShape.
  destruct (templates m !! Name eco) as [t|] eqn:Ht.
  - destruct Htmpl as [Hlen Heco].
    destruct (Updates t) as [|tu [|tu' us]] eqn:Hus; simpl in Hlen; [| |lia].
    + right. split; [apply bind_nil_const|]. intros t' tu' [= <-]. rewrite Hus.
      apply not_elem_of_nil.
    + left. exists (setDirectory tu). split.
      { by apply bind_singleton_fmap. }
      intros dir Hdir. rewrite Forall_singleton in Heco. split_and!; simpl; [done..|].
      intros t' tu'. rewrite Ht. intros [= <-]. rewrite Hus.
      intros ->%list_elem_of_singleton. done.
  - left. exists (basicUpdate (EcoType eco)). split; [done|].
    intros dir Hdir. split_and!; [done..|]. intros t' tu'. by rewrite Ht.
Qed.

Lemma mergeRules_shape (m : Merger) (E : DependabotConfig) (eco : Ecosystem) :
  wellFormedEcosystem m eco → generatedShape m eco (mergeRules m E eco).
Proof.
  intros Hwf. pose proof Hwf as (_ & _ & Htmpl). unfold mergeRules, generatedShape.
  destruct (templates m !! Name eco) as [t|] eqn:Ht; [|by right].
  destruct Htmpl as [Hlen Heco].
  destruct (Updates t) as [|tu [|tu' us]] eqn:Hus; simpl in Hlen; [| |lia].
  - right. split.
    + erewrite list_bind_ext; [apply bind_nil_const| |done].
      intros dir. simpl. by destruct (findUpdate _ _ _).
    + intros t' tu' [= <-]. rewrite Hus. apply not_elem_of_nil.
  - left.
    exists (fun dir =>
      match findUpdate (Updates E) (EcoType eco) dir with
      | Some existingUpdate =>
          setDirectory (mergeUpdate existingUpdate tu)
            (if isRootOnlyEcosystem (EcoType eco) then "/" else dir)
      | None => setDirectory tu dir
      end).
    split.
    { apply bind_singleton_fmap. intros dir. by destruct (findUpdate _ _ _). }
    intros dir Hdir. rewrite Forall_singleton in Heco.
    destruct (findUpdate (Updates E) (EcoType eco) dir) as [ex|] eqn:Hfind.
    + apply findUpdate_Some in Hfind as (_ & Hex & _). split_and!; simpl; [done| |].
      { by apply (wellFormedEcosystem_root m). }
      intros t' tu'. rewrite Ht. intros [= <-]. rewrite Hus.
      intros ->%list_elem_of_singleton.
      split; [done|]. intros Hpos. apply Z.ltb_lt in Hpos. by rewrite Hpos.
    + split_and!; simpl; [done..|].
      intros t' tu'. rewrite Ht. intros [= <-]. rewrite Hus.
      intros ->%list_elem_of_singleton. done.
Qed.

Section generated.
Context (m : Merger) (rules : Ecosystem → list DependabotUpdate).
Hypothesis rules_shape :
  ∀ eco, wellFormedEcosystem m eco → generatedShape m eco (rules eco).

Lemma generated_ecosystem (eco : Ecosystem) (g : DependabotUpdate) :
  wellFormedEcosystem m eco → g ∈ rules eco →
  ∃ dir, dir ∈ Directories eco ∧ instantiates m eco dir g.
Proof.
  intros Hwf Hg. destruct (rules_shape eco Hwf) as [(h & Hr & Hh)|[Hr _]];
    rewrite Hr in Hg; [|by apply elem_of_nil in Hg].
  apply list_elem_of_fmap in Hg as (dir & -> & Hdir). eauto.
Qed.

Lemma generated_identity (eco : Ecosystem) (dir : string) (g : DependabotUpdate) :
  instantiates m eco dir g →
  identity g = (EcoType eco, if isRootOnlyEcosystem (EcoType eco) then "/" else dir).
Proof. intros (He & Hd & _). unfold identity. by rewrite He, Hd. Qed.

Lemma generated_NoDup_one (eco : Ecosystem) :
  wellFormedEcosystem m eco → NoDup (identity <$> rules eco).
Proof.
  intros Hwf. destruct (rules_shape eco Hwf) as [(h & Hr & Hh)|[Hr _]];
    rewrite Hr; [|constructor].
  rewrite <-list_fmap_compose. apply NoDup_fmap_2_strong; [|by destruct Hwf].
  intros d1 d2 H1 H2. simpl.
  rewrite (generated_identity eco d1), (generated_identity eco d2) by auto.
  intros [= Hk]. destruct Hwf as (_ & Hroot & _).
  by apply (detectionKey_inj eco).
Qed.

Lemma generated_NoDup (D : list Ecosystem) :
  wellFormed m D → NoDup (identity <$> (D ≫= rules)).
Proof.
  intros [Hnd Hwf]. induction D as [|eco D IH]; [constructor|].
  rewrite fmap_cons, NoDup_cons in Hnd. destruct Hnd as [Hnew Hnd].
  apply Forall_cons in Hwf as [Hwf1 Hwf].
  rewrite bind_cons, fmap_app. apply NoDup_app.
  split_and!; [by apply generated_NoDup_one| |by apply IH].
  intros k (g & -> & Hg)%list_elem_of_fmap (g' & Hk & Hg')%list_elem_of_fmap.
  apply list_elem_of_bind in Hg' as (eco' & Hg' & Heco').
  rewrite Forall_forall in Hwf.
  destruct (generated_ecosystem eco g Hwf1 Hg) as (d & _ & Hi).
  destruct (generated_ecosystem eco' g' (Hwf _ Heco') Hg') as (d' & _ & Hi').
  rewrite (generated_identity _ _ _ Hi), (generated_identity _ _ _ Hi') in Hk.
  destruct Hnew. assert (EcoType eco = EcoType eco') as -> by congruence.
  by apply list_elem_of_fmap_2.
Qed.

Lemma generated_rootOnly (D : list Ecosystem) (g : DependabotUpdate) :
  wellFormed m D → g ∈ D ≫= rules →
  isRootOnlyEcosystem (PackageEcosystem g) = true → Directory g = "/".
Proof.
  intros [_ Hwf] (eco & Hg & Heco)%list_elem_of_bind Hroot.
  rewrite Forall_forall in Hwf. specialize (Hwf _ Heco).
  destruct (generated_ecosystem eco g Hwf Hg) as (dir & Hdir & He & Hd & _).
  rewrite He in Hroot. pose proof (wellFormedEcosystem_root m eco dir Hwf Hdir) as H.
  rewrite Hroot in H. congruence.
Qed.

Lemma generated_exists (D : list Ecosystem) (eco : Ecosystem) (dir : string)
    (template : DependabotConfig) (tmplUpdate : DependabotUpdate) :
  wellFormed m D → eco ∈ D → dir ∈ Directories eco →
  templates m !! Name eco = Some template → tmplUpdate ∈ Updates template →
  ∃ g, g ∈ D ≫= rules ∧ instantiates m eco dir g.
Proof.
  intros [_ Hwf] Heco Hdir Ht Htu. rewrite Forall_forall in Hwf.
  destruct (rules_shape eco (Hwf _ Heco)) as [(h & Hr & Hh)|[_ Hnone]].
  - exists (h dir). split; [|by apply Hh].
    apply list_elem_of_bind. exists eco. split; [|done].
    rewrite Hr. by apply list_elem_of_fmap_2.
  - by destruct (Hnone _ _ Ht Htu).
Qed.
End generated.

(** ** What holds of every merged document for well-formed detections *)

Lemma Merge_identity_NoDup (m : Merger) (E : option DependabotConfig)
    (D : list Ecosystem) :
  wellFormed m D → NoDup (identity <$> Updates (Merge m E D)).
Proof.
  intros Hwf. destruct E as [E|].
  - rewrite Merge_existing_updates, sortUpdates_Permutation.
    apply carry_NoDup, (generated_NoDup m); [|done].
    intros eco. apply mergeRules_shape.
  - rewrite Merge_absent_updates, sortUpdates_Permutation.
    apply (generated_NoDup m); [|done]. intros eco. apply createRules_shape.
Qed.

Lemma Merge_rootOnly (m : Merger) (E : option DependabotConfig) (D : list Ecosystem)
    (u : DependabotUpdate) :
  wellFormed m D → u ∈ Updates (Merge m E D) →
  isRootOnlyEcosystem (PackageEcosystem u) = true → Directory u = "/".
Proof.
  intros Hwf Hu Hroot. destruct E as [E|].
  - rewrite Merge_existing_updates, sortUpdates_elem_of in Hu.
    apply carry_elem_of in Hu as [Hu|(x & _ & ->)].
    + apply (generated_rootOnly m (mergeRules m E) (fun eco => mergeRules_shape m E eco) D);
        done.
    + rewrite normalizeRootOnly_ecosystem in Hroot.
      by apply normalizeRootOnly_directory.
  - rewrite Merge_absent_updates, sortUpdates_elem_of in Hu.
    by apply (generated_rootOnly m (createRules m) (createRules_shape m) D).
Qed.

Lemma Merge_instantiated (m : Merger) (E : option DependabotConfig)
    (D : list Ecosystem) (eco : Ecosystem) (dir : string)
    (template : DependabotConfig) (tmplUpdate : DependabotUpdate) :
  wellFormed m D → eco ∈ D → dir ∈ Directories eco →
  templates m !! Name eco = Some template → tmplUpdate ∈ Updates template →
  ∃ g, g ∈ Updates (Merge m E D) ∧ instantiates m eco dir g.
Proof.
  intros Hwf Heco Hdir Ht Htu. destruct E as [E|].
  - destruct (generated_exists m (mergeRules m E) (fun eco => mergeRules_shape m E eco)
                D eco dir template tmplUpdate) as (g & Hg & Hi); [done..|].
    exists g. split; [|done].
    rewrite Merge_existing_updates, sortUpdates_elem_of. by apply carry_incl.
  - destruct (generated_exists m (createRules m) (createRules_shape m)
                D eco dir template tmplUpdate) as (g & Hg & Hi); [done..|].
    exists g. split; [|done]. by rewrite Merge_absent_updates, sortUpdates_elem_of.
Qed.

(** ** The second run of [Merge] on its own output *)

Lemma identity_fields (u : DependabotUpdate) :
  identity u = fieldsIdentity (comparedFields u).
Proof. done. Qed.

Lemma ruleLe_fields (u v : DependabotUpdate) :
  ruleLe u v → fieldsLe (comparedFields u) (comparedFields v).
Proof. done. Qed.

Lemma rerun_generated (m : Merger) (E : option DependabotConfig) (D : list Ecosystem)
    (g : DependabotUpdate) :
  wellFormed m D →
  g ∈ D ≫= mergeRules m (Merge m E D) →
  ∃ r, r ∈ Updates (Merge m E D) ∧ comparedFields g = comparedFields r.
Proof.
  intros Hwf (eco & Hg & Heco)%list_elem_of_bind.
  pose proof Hwf as [_ Hall]. rewrite Forall_forall in Hall.
  pose proof (Hall _ Heco) as Hwfe.
  unfold mergeRules in Hg.
  destruct (templates m !! Name eco) as [t|] eqn:Ht; [|by apply elem_of_nil in Hg].
  apply list_elem_of_bind in Hg as (dir & Hg & Hdir).
  assert (∃ tu, tu ∈ Updates t) as [tu Htu].
  { destruct (findUpdate _ _ _); apply list_elem_of_fmap in Hg as (tu & _ & Htu); eauto. }
  destruct (Merge_instantiated m E D eco dir t tu) as (r & Hr & Hi); [done..|].
  exists r. split; [done|].
  pose proof Hi as (Hre & Hrd & Hrt). destruct (Hrt t tu Ht Htu) as [Hint Hlim].
  destruct (findUpdate (Updates (Merge m E D)) (EcoType eco) dir) as [r0|] eqn:Hfind.
  - apply findUpdate_Some in Hfind as (Hr0 & Hr0e & Hr0d).
    assert (r0 = r) as ->.
    { apply (NoDup_fmap_eq identity (Updates (Merge m E D)));
        [by apply Merge_identity_NoDup|done..|].
      unfold identity. rewrite Hr0e, Hre, Hrd.
      destruct (isRootOnlyEcosystem (EcoType eco)); [done|].
      destruct Hr0d as [Hroot | ->]; done. }
    apply list_elem_of_fmap in Hg as (tu' & -> & Htu').
    assert (tu' = tu) as ->.
    { destruct Hwfe as (_ & _ & Htmpl). rewrite Ht in Htmpl. destruct Htmpl as [Hlen _].
      destruct (Updates t) as [|a [|b l]]; simpl in Hlen; [by apply elem_of_nil in Htu| |lia].
      apply list_elem_of_singleton in Htu, Htu'. congruence. }
    unfold comparedFields. simpl.
    rewrite (wellFormedEcosystem_root m eco dir Hwfe Hdir), Hrd, Hint.
    destruct (0 <? OpenPullRequestsLimit tu) eqn:Hpos; [|done].
    apply Z.ltb_lt in Hpos. by rewrite Hlim.
  - destruct (findUpdate_None _ _ _ r Hfind Hr Hre) as [_ Hne]. done.
Qed.

Lemma rerun_fields_incl (m : Merger) (E : option DependabotConfig) (D : list Ecosystem)
    (p : string * string * string * Z) :
  wellFormed m D →
  p ∈ comparedFields <$> Updates (Merge m (Some (Merge m E D)) D) →
  p ∈ comparedFields <$> Updates (Merge m E D).
Proof.
  intros Hwf (y & -> & Hy)%list_elem_of_fmap.
  rewrite Merge_existing_updates, sortUpdates_elem_of in Hy.
  apply carry_elem_of in Hy as [Hy|(x & Hx & ->)].
  - destruct (rerun_generated m E D y Hwf Hy) as (r & Hr & ->).
    by apply list_elem_of_fmap_2.
  - rewrite normalizeRootOnly_id; [by apply list_elem_of_fmap_2|].
    by apply (Merge_rootOnly m E D).
Qed.

Lemma rerun_fields_covered (m : Merger) (E : option DependabotConfig)
    (D : list Ecosystem) (p : string * string * string * Z) :
  wellFormed m D →
  p ∈ comparedFields <$> Updates (Merge m E D) →
  p ∈ comparedFields <$> Updates (Merge m (Some (Merge m E D)) D).
Proof.
  intros Hwf (x & -> & Hx)%list_elem_of_fmap.
  pose proof (carry_covered (Updates (Merge m E D))
                (D ≫= mergeRules m (Merge m E D)) x Hx) as Hc.
  apply list_elem_of_fmap in Hc as (y & Hid & Hy).
  assert (comparedFields y = comparedFields x) as <-.
  { assert (∃ r, r ∈ Updates (Merge m E D) ∧ comparedFields y = comparedFields r)
      as (r & Hr & Hyr).
    { apply carry_elem_of in Hy as [Hy|(x' & Hx' & ->)].
      - by apply rerun_generated.
      - exists x'. split; [done|]. rewrite normalizeRootOnly_id; [done|].
        by apply (Merge_rootOnly m E D). }
    rewrite Hyr. f_equal.
    apply (NoDup_fmap_eq identity (Updates (Merge m E D)));
      [by apply Merge_identity_NoDup|done..|].
    by rewrite Hid, !identity_fields, Hyr. }
  apply list_elem_of_fmap_2.
  by rewrite Merge_existing_updates, sortUpdates_elem_of.
Qed.

Lemma Merge_fields_sorted (m : Merger) (E : option DependabotConfig)
    (D : list Ecosystem) :
  StronglySorted fieldsLe (comparedFields <$> Updates (Merge m E D)).
Proof.
  apply (StronglySorted_fmap comparedFields ruleLe fieldsLe); [exact ruleLe_fields|].
  destruct E as [E|].
  - rewrite Merge_existing_updates. apply sortUpdates_StronglySorted.
  - rewrite Merge_absent_updates. apply sortUpdates_StronglySorted.
Qed.

Lemma Merge_fields_NoDup (m : Merger) (E : option DependabotConfig)
    (D : list Ecosystem) :
  wellFormed m D → NoDup (comparedFields <$> Updates (Merge m E D)).
Proof.
  intros Hwf. apply (NoDup_fmap_1 fieldsIdentity). rewrite <-list_fmap_compose.
  by apply Merge_identity_NoDup.
Qed.

Lemma fieldsLe_antisym (p q : string * string * string * Z) :
  fieldsLe p q → fieldsLe q p → fieldsIdentity p = fieldsIdentity q.
Proof.
  intros [Hpq|[Hpq Hd1]] [Hqp|[Hqp Hd2]]; unfold fieldsIdentity.
  - destruct (string_ltb_asym _ _ Hpq Hqp).
  - rewrite Hqp, string_ltb_irrefl in Hpq. done.
  - rewrite Hpq, string_ltb_irrefl in Hqp. done.
  - by rewrite Hpq, (String.leb_antisym _ _ Hd1 Hd2).
Qed.

Lemma Merge_version (m : Merger) (E : option DependabotConfig) (D : list Ecosystem) :
  Version (Merge m E D) = 2.
Proof. by destruct E. Qed.

Lemma rerun_fields_eq (m : Merger) (E : option DependabotConfig) (D : list Ecosystem) :
  wellFormed m D →
  comparedFields <$> Updates (Merge m (Some (Merge m E D)) D)
  = comparedFields <$> Updates (Merge m E D).
Proof.
  intros Hwf. apply (StronglySorted_unique_strong fieldsLe).
  - intros p q Hp Hq Hpq Hqp. apply rerun_fields_incl in Hp; [|done].
    apply (NoDup_fmap_eq fieldsIdentity (comparedFields <$> Updates (Merge m E D)));
      [|done..|by apply fieldsLe_antisym].
    rewrite <-list_fmap_compose. by apply Merge_identity_NoDup.
  - apply Merge_fields_sorted.
  - apply Merge_fields_sorted.
  - apply NoDup_Permutation; [by apply Merge_fields_NoDup..|].
    intros p. split; [by apply rerun_fields_incl|by apply rerun_fields_covered].
Qed.

(** ** The detector: recording matches *)

Lemma confidenceGreater_true (a b : Q) : confidenceGreater a b = true ↔ (b < a)%Q.
Proof.
  unfold confidenceGreater. rewrite negb_true_iff, <-not_true_iff_false, Qle_bool_iff.
  split; [apply Qnot_le_lt|apply Qlt_not_le].
Qed.

Lemma confidenceGreater_false (a b : Q) : confidenceGreater a b = false ↔ (a <= b)%Q.
Proof. unfold confidenceGreater. by rewrite negb_false_iff, Qle_bool_iff. Qed.

Lemma recordMatch_lookup_ne (m : gmap string Ecosystem) (k k' dir : string)
    (ind : indicator) :
  k ≠ k' → recordMatch m k dir ind !! k' = m !! k'.
Proof.
  intros Hne. unfold recordMatch. rewrite lookup_alter_ne by done.
  destruct (m !! k) as [eco|]; [|by rewrite lookup_insert_ne].
  destruct (confidenceGreater _ _); [by rewrite lookup_insert_ne|done].
Qed.

Lemma recordMatch_lookup_eq (m : gmap string Ecosystem) (k dir : string)
    (ind : indicator) :
  ∃ eco, recordMatch m k dir ind !! k = Some eco
    ∧ match m !! k with
      | None => Name eco = k ∧ EcoType eco = k ∧ Confidence eco = confidence ind
      | Some old =>
          Name eco = Name old ∧ EcoType eco = EcoType old
          ∧ Confidence eco
            = if confidenceGreater (confidence ind) (Confidence old)
              then confidence ind else Confidence old
      end.
Proof.
  unfold recordMatch. destruct (m !! k) as [old|] eqn:Hk.
  - destruct (confidenceGreater (confidence ind) (Confidence old)).
    + rewrite lookup_alter_eq, lookup_insert_eq. simpl. eauto.
    + rewrite lookup_alter_eq, Hk. simpl. eauto.
  - rewrite lookup_alter_eq, lookup_insert_eq. simpl. eauto.
Qed.

Lemma recorded_empty : recorded [] ∅.
Proof. intros tag. rewrite lookup_empty. intros dir ind. apply not_elem_of_nil. Qed.

Lemma recorded_step (evs : list (string * string * indicator))
    (m : gmap string Ecosystem) (ev : string * string * indicator) :
  recorded evs m → recorded (evs ++ [ev]) (recordEvent m ev).
Proof.
  destruct ev as [[k dir] ind]. intros Hrec tag. unfold recordEvent. simpl.
  specialize (Hrec tag). destruct (decide (k = tag)) as [->|Hne].
  - destruct (recordMatch_lookup_eq m tag dir ind) as (eco & -> & Hnew).
    destruct (m !! tag) as [old|].
    + destruct Hrec as (Hn & Ht & (d0 & i0 & Hin & Hc) & Hmax).
      destruct Hnew as (Hn' & Ht' & Hc').
      split_and!; [congruence..| |].
      * destruct (confidenceGreater (confidence ind) (Confidence old)).
        -- exists dir, ind. split; [|done]. apply elem_of_app. right. by left.
        -- exists d0, i0. split; [|congruence]. apply elem_of_app. by left.
      * intros d i [Hi|Hi%list_elem_of_singleton]%elem_of_app.
        -- apply Hmax in Hi. rewrite Hc'.
           destruct (confidenceGreater _ _) eqn:Hg; [|done].
           apply confidenceGreater_true in Hg. eapply Qle_trans; [done|].
           by apply Qlt_le_weak.
        -- injection Hi as _ ->. rewrite Hc'.
           destruct (confidenceGreater _ _) eqn:Hg; [apply Qle_refl|].
           by apply confidenceGreater_false in Hg.
    + destruct Hnew as (Hn' & Ht' & Hc'). split_and!; [done..| |].
      * exists dir, ind. split; [|done]. apply elem_of_app. right. by left.
      * intros d i [Hi|Hi%list_elem_of_singleton]%elem_of_app.
        -- by apply Hrec in Hi.
        -- injection Hi as _ ->. rewrite Hc'. apply Qle_refl.
  - rewrite recordMatch_lookup_ne by done. destruct (m !! tag) as [old|].
    + destruct Hrec as (Hn & Ht & (d0 & i0 & Hin & Hc) & Hmax). split_and!; [done..| |].
      * exists d0, i0. split; [|done]. apply elem_of_app. by left.
      * intros d i [Hi|Hi%list_elem_of_singleton]%elem_of_app; [by eapply Hmax|].
        congruence.
    + intros d i [Hi|Hi%list_elem_of_singleton]%elem_of_app; [by apply Hrec in Hi|].
      congruence.
Qed.

Lemma recorded_fold (evs done : list (string * string * indicator))
    (m : gmap string Ecosystem) :
  recorded done m → recorded (done ++ evs) (fold_left recordEvent evs m).
Proof.
  revert done m. induction evs as [|ev evs IH]; intros done m Hrec; simpl.
  - by rewrite app_nil_r.
  - rewrite (cons_middle ev), app_assoc. by apply IH, recorded_step.
Qed.

(** ** The detector: the loops as a list of matches *)

Lemma scanFiles_matches (path ecosystem : string) (files : list indicator)
    (m : gmap string Ecosystem) :
  fold_left
    (fun ecosystems ind =>
       if matchesPattern path (file ind)
       then recordMatch ecosystems ecosystem (extractDirectory path) ind
       else ecosystems)
    files m
  = fold_left recordEvent
      ((fun ind => (ecosystem, extractDirectory path, ind))
         <$> filter (fun ind => matchesPattern path (file ind) = true) files) m.
Proof.
  revert m. induction files as [|ind files IH]; intros m; simpl; [done|].
  rewrite filter_cons. case_decide as Hm.
  - rewrite Hm. simpl. apply IH.
  - apply not_true_is_false in Hm. rewrite Hm. apply IH.
Qed.

Lemma scanPath_matches (table : list (string * list indicator))
    (m : gmap string Ecosystem) (path : string) :
  scanPath table m path = fold_left recordEvent (pathMatches table path) m.
Proof.
  unfold scanPath, pathMatches. revert m.
  induction table as [|[ecosystem files] table IH]; intros m; simpl; [done|].
  rewrite fold_left_app, <-scanFiles_matches. apply IH.
Qed.

Lemma scanEntries_matches (table : list (string * list indicator))
    (entries : list TreeEntry) (m : gmap string Ecosystem) :
  fold_left (scanEntry table) entries m
  = fold_left recordEvent (treeMatches table entries) m.
Proof.
  unfold treeMatches, blobPaths. revert m.
  induction entries as [|entry entries IH]; intros m; simpl; [done|].
  unfold scanEntry at 2. destruct (isBlob entry) as [path|]; simpl; [|apply IH].
  by rewrite fold_left_app, <-scanPath_matches, IH.
Qed.

Lemma treeMatches_elem_of (table : list (string * list indicator))
    (entries : list TreeEntry) (tag dir : string) (ind : indicator) :
  (tag, dir, ind) ∈ treeMatches table entries ↔
  ∃ path files,
    path ∈ blobPaths entries ∧ (tag, files) ∈ table ∧ ind ∈ files
    ∧ matchesPattern path (file ind) = true ∧ dir = extractDirectory path.
Proof.
  unfold treeMatches, pathMatches. rewrite list_elem_of_bind. split.
  - intros (path & Hin & Hpath). apply list_elem_of_bind in Hin as ([k files] & Hin & Hk).
    apply list_elem_of_fmap in Hin as (ind' & [= -> -> ->] & Hind).
    apply list_elem_of_filter in Hind as [Hm Hind]. exists path, files. done.
  - intros (path & files & Hpath & Hk & Hind & Hm & ->). exists path. split; [|done].
    apply list_elem_of_bind. exists (tag, files). split; [|done].
    apply list_elem_of_fmap. exists ind. split; [done|].
    by apply list_elem_of_filter.
Qed.

Lemma scanned_recorded (entries : list TreeEntry) :
  recorded (treeMatches indicators entries) (fold_left (scanEntry indicators) entries ∅).
Proof.
  rewrite scanEntries_matches. apply (recorded_fold _ []), recorded_empty.
Qed.

(** ** The detector: the final sort *)

Lemma swapPass_spec (rest : list Ecosystem) (ri ri' : Ecosystem)
    (rest' : list Ecosystem) :
  swapPass ri rest = (ri', rest') →
  ri' :: rest' ≡ₚ ri :: rest
  ∧ length rest' = length rest
  ∧ confidenceGe ri' ri
  ∧ Forall (confidenceGe ri') rest'.
Proof.
  revert ri ri' rest'. induction rest as [|rj rest IH]; intros ri ri' rest'; simpl.
  - intros [= <- <-]. split_and!; [done..| |constructor]. apply Qle_refl.
  - destruct (confidenceGreater (Confidence rj) (Confidence ri)) eqn:Hg.
    + destruct (swapPass rj rest) as [r l] eqn:Hp. intros [= <- <-].
      destruct (IH _ _ _ Hp) as (Hperm & Hlen & Hge & Hall).
      apply confidenceGreater_true, Qlt_le_weak in Hg.
      assert (confidenceGe r ri) as Hri by (unfold confidenceGe in *; by eapply Qle_trans).
      split_and!; [|by simpl; f_equal|done|by constructor].
      by rewrite Permutation_swap, Hperm, Permutation_swap.
    + destruct (swapPass ri rest) as [r l] eqn:Hp. intros [= <- <-].
      destruct (IH _ _ _ Hp) as (Hperm & Hlen & Hge & Hall).
      apply confidenceGreater_false in Hg.
      assert (confidenceGe r rj) as Hrj by (unfold confidenceGe in *; by eapply Qle_trans).
      split_and!; [|by simpl; f_equal|done|by constructor].
      by rewrite Permutation_swap, Hperm, Permutation_swap.
Qed.

Lemma sortRounds_Permutation (rounds : nat) (result : list Ecosystem) :
  sortRounds rounds result ≡ₚ result.
Proof.
  revert result. induction rounds as [|rounds IH]; intros [|ri rest]; simpl; try done.
  destruct (swapPass ri rest) as [ri' rest'] eqn:Hp.
  apply swapPass_spec in Hp as (Hperm & _). by rewrite IH.
Qed.


Lemma sortByConfidence_Permutation (result : list Ecosystem) :
  sortByConfidence result ≡ₚ result.
Proof. apply sortRounds_Permutation. Qed.


(** ** The deep merge of groups *)



(** ** Rules for an ecosystem nobody detected *)



(** * The properties of the specification *)

(** C10: [Equal] on two documents compares the schema version, the number
    of update rules and, position by position, the ecosystem identifier, the
    directory, the schedule interval and the open-PR limit of each rule, and
    nothing else: it answers [true] exactly when those agree, whatever the
    other fields of the rules hold. *)
Theorem Equal_coarse (c o : DependabotConfig) :
  Equal (Some c) (Some o) = true ↔
  Version c = Version o
  ∧ length (Updates c) = length (Updates o)
  ∧ ∀ i u v, Updates c !! i = Some u → Updates o !! i = Some v →
      PackageEcosystem u = PackageEcosystem v
      ∧ Directory u = Directory v
      ∧ Interval (UpdateSchedule u) = Interval (UpdateSchedule v)
      ∧ OpenPullRequestsLimit u = OpenPullRequestsLimit v.
Proof.
  rewrite Equal_fields. split.
  - intros [Hv Hf]. split; [done|]. split.
    + by rewrite <-(length_fmap comparedFields (Updates c)), Hf, length_fmap.
    + intros i u v Hu Hv'.
      assert ((comparedFields <$> Updates c) !! i = Some (comparedFields u)) as H1
        by (by rewrite list_lookup_fmap, Hu).
      rewrite Hf, list_lookup_fmap, Hv' in H1. simpl in H1.
      unfold comparedFields in H1. by simplify_eq.
  - intros (Hv & Hlen & Hall). split; [done|]. apply list_eq. intros i.
    rewrite !list_lookup_fmap.
    destruct (Updates c !! i) as [u|] eqn:Hu, (Updates o !! i) as [v|] eqn:Hv'; simpl.
    + destruct (Hall i u v Hu Hv') as (? & ? & ? & ?). unfold comparedFields.
      by f_equal; f_equal; [f_equal; [f_equal|]|].
    + apply lookup_lt_Some in Hu. apply lookup_ge_None in Hv'. lia.
    + apply lookup_lt_Some in Hv'. apply lookup_ge_None in Hu. lia.
    + done.
Qed.

(** C6: when [mergeUpdate] merges an existing rule with a template rule,
    the directory, the target branch and the vendor flag are the existing
    rule's, the schedule is the template's, and the open-PR limit is the
    template's when that is positive and the existing rule's otherwise; on the
    rules of the "Preservation" example the merged rule has target branch
    "develop", vendor [true], the weekly schedule and limit 10. *)
Theorem mergeUpdate_policy (existing template : DependabotUpdate) :
  (Directory (mergeUpdate existing template) = Directory existing
   ∧ TargetBranch (mergeUpdate existing template) = TargetBranch existing
   ∧ Vendor (mergeUpdate existing template) = Vendor existing
   ∧ UpdateSchedule (mergeUpdate existing template) = UpdateSchedule template
   ∧ (0 < OpenPullRequestsLimit template →
      OpenPullRequestsLimit (mergeUpdate existing template)
      = OpenPullRequestsLimit template)
   ∧ (OpenPullRequestsLimit template ≤ 0 →
      OpenPullRequestsLimit (mergeUpdate existing template)
      = OpenPullRequestsLimit existing))
  ∧ TargetBranch (mergeUpdate preservationExisting preservationTemplate) = "develop"
  ∧ Vendor (mergeUpdate preservationExisting preservationTemplate) = true
  ∧ UpdateSchedule (mergeUpdate preservationExisting preservationTemplate)
    = weeklySchedule
  ∧ OpenPullRequestsLimit (mergeUpdate preservationExisting preservationTemplate) = 10.
Proof.
  split; [|done]. split_and!; simpl; try done.
  - intros Hpos. apply Z.ltb_lt in Hpos. by rewrite Hpos.
  - intros Hneg. apply Z.ltb_ge in Hneg. by rewrite Hneg.
Qed.

(** C8: the labels, reviewers and assignees of a merged rule are each the
    union made by [mergeStringSlices]: the existing items first, then the
    template items not among them, every item once, at the place it was seen
    first; existing labels "dependencies", "custom" and template labels
    "automated", "npm" give "dependencies", "custom", "automated", "npm". *)
Theorem mergeStringSlices_union (a b : list string) :
  mergeStringSlices a b = firstSeen a ++ filter (fun x => x ∉ a) (firstSeen b)
  ∧ mergeStringSlices a b = firstSeen (a ++ b)
  ∧ NoDup (mergeStringSlices a b)
  ∧ (∀ x, x ∈ mergeStringSlices a b ↔ x ∈ a ∨ x ∈ b)
  ∧ (∀ existing template,
       Labels (mergeUpdate existing template)
       = mergeStringSlices (Labels existing) (Labels template)
       ∧ Reviewers (mergeUpdate existing template)
         = mergeStringSlices (Reviewers existing) (Reviewers template)
       ∧ Assignees (mergeUpdate existing template)
         = mergeStringSlices (Assignees existing) (Assignees template))
  ∧ Labels (mergeUpdate unionExisting unionTemplate)
    = ["dependencies"; "custom"; "automated"; "npm"].
Proof.
  rewrite !mergeStringSlices_firstSeen. split_and!.
  - apply firstSeen_app.
  - done.
  - apply firstSeen_NoDup.
  - intros x. by rewrite firstSeen_elem_of, elem_of_app.
  - done.
  - by vm_compute.
Qed.

(** C5: the update rules of every document [Merge] returns, with or
    without an existing configuration, are in ascending order of ecosystem
    identifier and, for equal identifiers, of directory. *)
Theorem Merge_sorted (m : Merger) (existing : option DependabotConfig)
    (ecosystems : list Ecosystem) :
  StronglySorted ruleLe (Updates (Merge m existing ecosystems)).
Proof.
  destruct existing as [existing|].
  - rewrite Merge_existing_updates. apply sortUpdates_StronglySorted.
  - rewrite Merge_absent_updates. apply sortUpdates_StronglySorted.
Qed.


(** C3, refuted as stated: with a template of two rules, the document
    made for one npm detection at the root holds two rules for ("npm", "/"). *)
Lemma uniqueness_counterexample :
  ∃ i j u v,
    i ≠ j
    ∧ Updates (Merge twoRuleMerger None [npmRoot]) !! i = Some u
    ∧ Updates (Merge twoRuleMerger None [npmRoot]) !! j = Some v
    ∧ PackageEcosystem u = PackageEcosystem v ∧ Directory u = Directory v.
Proof.
  exists 0%nat, 1%nat. eexists _, _.
  split; [done|]. split; [by vm_compute|]. split; [by vm_compute|]. by vm_compute.
Qed.

(** C3, amended: when the detected ecosystems are well formed (each
    ecosystem once, each of its directories once, "/" the only directory of a
    root-only ecosystem, every template of at most one rule, for its own
    ecosystem), then for any existing document, present or absent, two rules
    at different places of the document [Merge] returns never have the same
    ecosystem and directory, and never the same root-only ecosystem. *)
Theorem Merge_unique (m : Merger) (existing : option DependabotConfig)
    (ecosystems : list Ecosystem) (i j : nat) (u v : DependabotUpdate) :
  wellFormed m ecosystems →
  i ≠ j →
  Updates (Merge m existing ecosystems) !! i = Some u →
  Updates (Merge m existing ecosystems) !! j = Some v →
  PackageEcosystem u = PackageEcosystem v →
  Directory u ≠ Directory v ∧ isRootOnlyEcosystem (PackageEcosystem u) = false.
Proof.
  intros Hwf Hij Hu Hv Heco.
  pose proof (Merge_identity_NoDup m existing ecosystems Hwf) as Hnd.
  assert (identity u ≠ identity v) as Hid.
  { intros Hid. apply Hij.
    apply (NoDup_lookup _ i j (identity u) Hnd); rewrite list_lookup_fmap.
    - by rewrite Hu.
    - by rewrite Hv, Hid. }
  unfold identity in Hid. rewrite <-Heco in Hid.
  destruct (isRootOnlyEcosystem (PackageEcosystem u)); [done|].
  split; [|done]. congruence.
Qed.

Lemma Merge_unique_witness :
  wellFormed orgMerger [npmMonorepo; dockerRoot]
  ∧ ∃ u v,
      Updates (Merge orgMerger (Some repoConfig) [npmMonorepo; dockerRoot]) !! 1%nat
      = Some u
      ∧ Updates (Merge orgMerger (Some repoConfig) [npmMonorepo; dockerRoot]) !! 2%nat
        = Some v
      ∧ Directory u ≠ Directory v
      ∧ isRootOnlyEcosystem (PackageEcosystem u) = false.
Proof.
  assert (wellFormed orgMerger [npmMonorepo; dockerRoot]) as Hwf.
  { apply (bool_decide_unpack _). vm_compute. exact I. }
  split; [exact Hwf|]. eexists _, _.
  split; [vm_compute; reflexivity|]. split; [vm_compute; reflexivity|].
  apply (Merge_unique orgMerger (Some repoConfig) [npmMonorepo; dockerRoot] 1 2).
  - exact Hwf.
  - lia.
  - vm_compute. reflexivity.
  - vm_compute. reflexivity.
  - vm_compute. reflexivity.
Defined.

(** C1, refuted as stated: with a template of two rules, of which the
    second has no limit, the document made from the templates is not equal to
    the result of merging it again: the second rule takes the limit of the
    first one. *)
Lemma idempotence_counterexample :
  Equal (Some (Merge twoRuleMerger (Some (Merge twoRuleMerger None [npmRoot])) [npmRoot]))
        (Some (Merge twoRuleMerger None [npmRoot])) = false.
Proof. by vm_compute. Qed.

(** C1, amended: when the detected ecosystems are well formed (each
    ecosystem once, each of its directories once, "/" the only directory of a
    root-only ecosystem, every template of at most one rule, for its own
    ecosystem), then for every existing document, absent included, running
    [Merge] again on its own output with the same templates and detected
    ecosystems gives a document [Equal] to that output. *)
Theorem Merge_idempotent (m : Merger) (existing : option DependabotConfig)
    (ecosystems : list Ecosystem) :
  wellFormed m ecosystems →
  Equal (Some (Merge m (Some (Merge m existing ecosystems)) ecosystems))
        (Some (Merge m existing ecosystems)) = true.
Proof.
  intros Hwf. apply Equal_fields. split.
  - by rewrite !Merge_version.
  - by apply rerun_fields_eq.
Qed.

Lemma Merge_idempotent_witness :
  wellFormed orgMerger [npmMonorepo; dockerRoot]
  ∧ Equal
      (Some (Merge orgMerger
               (Some (Merge orgMerger (Some repoConfig) [npmMonorepo; dockerRoot]))
               [npmMonorepo; dockerRoot]))
      (Some (Merge orgMerger (Some repoConfig) [npmMonorepo; dockerRoot])) = true.
Proof.
  assert (wellFormed orgMerger [npmMonorepo; dockerRoot]) as Hwf.
  { apply (bool_decide_unpack _). vm_compute. exact I. }
  split; [exact Hwf|].
  apply (Merge_idempotent orgMerger (Some repoConfig) [npmMonorepo; dockerRoot]).
  exact Hwf.
Defined.




(** ** The detector: what [Detect] returns *)

Lemma Detect_result (iteration : list string) (entries : list TreeEntry) :
  Detect iteration (Some entries)
  = Some (sortByConfidence
            (omap (fun tag => fold_left (scanEntry indicators) entries ∅ !! tag)
               iteration)).
Proof. done. Qed.

Lemma Detect_elem_of (iteration : list string) (entries : list TreeEntry)
    (result : list Ecosystem) (eco : Ecosystem) :
  Detect iteration (Some entries) = Some result →
  eco ∈ result ↔
  ∃ tag, tag ∈ iteration
    ∧ fold_left (scanEntry indicators) entries ∅ !! tag = Some eco.
Proof.
  rewrite Detect_result. intros [= <-].
  rewrite sortByConfidence_Permutation, list_elem_of_omap. naive_solver.
Qed.

Lemma scanned_max (entries : list TreeEntry) (tag : string) (eco : Ecosystem) :
  fold_left (scanEntry indicators) entries ∅ !! tag = Some eco →
  Name eco = tag ∧ isMaxWeight entries tag (Confidence eco).
Proof.
  intros Hlook. pose proof (scanned_recorded entries tag) as Hrec.
  rewrite Hlook in Hrec. destruct Hrec as (Hn & _ & (dir & ind & Hin & Hc) & Hmax).
  split; [done|]. split.
  - apply treeMatches_elem_of in Hin as (path & files & ? & ? & ? & ? & _).
    by exists path, files, ind.
  - intros path files ind' Hpath Hfiles Hind Hm.
    apply (Hmax (extractDirectory path)), treeMatches_elem_of.
    by exists path, files.
Qed.

Lemma scanned_detected (entries : list TreeEntry) (tag : string) (c : Q) :
  isMaxWeight entries tag c →
  is_Some (fold_left (scanEntry indicators) entries ∅ !! tag).
Proof.
  intros [(path & files & ind & Hpath & Hfiles & Hind & Hm & _) _].
  pose proof (scanned_recorded entries tag) as Hrec.
  destruct (fold_left (scanEntry indicators) entries ∅ !! tag) as [eco|]; [by eexists|].
  destruct (Hrec (extractDirectory path) ind). apply treeMatches_elem_of.
  by exists path, files.
Qed.

Lemma omap_names_NoDup (m : gmap string Ecosystem) (iteration : list string) :
  (∀ tag eco, m !! tag = Some eco → Name eco = tag) →
  NoDup iteration → NoDup (Name <$> omap (fun tag => m !! tag) iteration).
Proof.
  intros Hname. induction 1 as [|tag iteration Hnew Hnd IH]; simpl; [constructor|].
  destruct (m !! tag) as [eco|] eqn:Hlook; [|done].
  rewrite fmap_cons. apply NoDup_cons. split; [|done].
  intros (eco' & Heq & Hin)%list_elem_of_fmap.
  apply list_elem_of_omap in Hin as (tag' & Htag' & Hlook').
  apply Hname in Hlook, Hlook'. destruct Hnew. congruence.
Qed.

Lemma ecosystemTags_NoDup : NoDup ecosystemTags.
Proof. apply (bool_decide_unpack _). by vm_compute. Qed.

(** C9: for every file tree, [Detect] returns at most one detected
    ecosystem per tag, one for every tag of which an indicator matches a file
    of the tree, and its confidence is the greatest weight among the
    indicators of that tag matched by files of the tree (the weight of one of
    them, and no smaller than that of any); a tree with "package-lock.json"
    (weight 1.0) and "package.json" (weight 0.8) gives the single detected
    ecosystem npm with confidence 1.0. *)
Theorem Detect_confidence_max (iteration : list string) :
  iteration ≡ₚ ecosystemTags →
  (∀ entries, ∃ result,
      Detect iteration (Some entries) = Some result
      ∧ NoDup (Name <$> result)
      ∧ (∀ eco, eco ∈ result → isMaxWeight entries (Name eco) (Confidence eco))
      ∧ (∀ tag c, isMaxWeight entries tag c →
           ∃ eco, eco ∈ result ∧ Name eco = tag ∧ (c == Confidence eco)%Q))
  ∧ Detect iteration (Some npmTree) = Some [npmRoot].
Proof.
  intros Hperm. split.
  - intros entries. eexists. split; [apply Detect_result|].
    set (m := fold_left (scanEntry indicators) entries ∅). split_and!.
    + rewrite sortByConfidence_Permutation. apply omap_names_NoDup.
      * intros tag eco Hlook. by apply scanned_max in Hlook as [? _].
      * rewrite Hperm. apply ecosystemTags_NoDup.
    + intros eco Hin. rewrite sortByConfidence_Permutation in Hin.
      apply list_elem_of_omap in Hin as (tag & _ & Hlook).
      apply scanned_max in Hlook as [<- Hmax]. done.
    + intros tag c Hmax. destruct (scanned_detected entries tag c Hmax) as [eco Hlook].
      exists eco. pose proof (scanned_max entries tag eco Hlook) as [Hn [Hex Hle]].
      split_and!; [|done|].
      * rewrite sortByConfidence_Permutation. apply list_elem_of_omap.
        exists tag. split; [|done]. rewrite Hperm.
        destruct Hmax as [(path & files & ind & _ & Hfiles & _) _].
        apply list_elem_of_fmap. by exists (tag, files).
      * destruct Hmax as [(p1 & f1 & i1 & Hp1 & Hf1 & Hi1 & Hm1 & ->) Hle1].
        destruct Hex as (p2 & f2 & i2 & Hp2 & Hf2 & Hi2 & Hm2 & Hc2).
        apply Qle_antisym.
        -- by apply (Hle p1 f1 i1).
        -- rewrite Hc2. by apply (Hle1 p2 f2 i2).
  - rewrite Detect_result. f_equal. apply Permutation_singleton_r.
    rewrite sortByConfidence_Permutation, Hperm. by vm_compute.
Qed.

Lemma Detect_confidence_max_witness :
  ecosystemTags ≡ₚ ecosystemTags
  ∧ Detect ecosystemTags (Some npmTree) = Some [npmRoot].
Proof.
  split; [reflexivity|].
  apply (Detect_confidence_max ecosystemTags). reflexivity.
Defined.




(** ** The detections [Detect] hands to the merge engine are well formed *)

Lemma appendUnique_elem_of (slice : list string) (item x : string) :
  x ∈ appendUnique slice item ↔ x ∈ slice ∨ x = item.
Proof.
  induction slice as [|y slice IH]; simpl.
  - rewrite list_elem_of_singleton. set_solver.
  - destruct (y =? item)%string eqn:Hy.
    + apply string_eqb_true in Hy. subst. set_solver.
    + rewrite !elem_of_cons, IH. naive_solver.
Qed.

Lemma appendUnique_NoDup (slice : list string) (item : string) :
  NoDup slice → NoDup (appendUnique slice item).
Proof.
  induction 1 as [|y slice Hy Hnd IH]; simpl; [apply NoDup_singleton|].
  destruct (y =? item)%string eqn:Hyi; [by constructor|].
  apply string_eqb_false in Hyi. constructor; [|done].
  rewrite appendUnique_elem_of. naive_solver.
Qed.

Lemma scansFromRoot_rootOnly (ecosystem : string) :
  scansFromRoot ecosystem = isRootOnlyEcosystem ecosystem.
Proof.
  destruct (isRootOnlyEcosystem ecosystem) eqn:Hr.
  - apply isRootOnlyEcosystem_cases in Hr as [-> | [-> | [-> | ->]]]; done.
  - unfold scansFromRoot. rewrite !orb_false_iff, !string_eqb_false.
    apply not_true_iff_false in Hr. rewrite isRootOnlyEcosystem_cases in Hr.
    naive_solver.
Qed.

Lemma recordMatch_directories (m : gmap string Ecosystem) (k dir : string)
    (ind : indicator) :
  ∃ eco, recordMatch m k dir ind !! k = Some eco
    ∧ Directories eco
      = appendUnique (match m !! k with Some old => Directories old | None => [] end)
          (if scansFromRoot k then "/" else dir).
Proof.
  unfold recordMatch. destruct (m !! k) as [old|] eqn:Hk.
  - destruct (confidenceGreater (confidence ind) (Confidence old)).
    + rewrite lookup_alter_eq, lookup_insert_eq. simpl. eauto.
    + rewrite lookup_alter_eq, Hk. simpl. eauto.
  - rewrite lookup_alter_eq, lookup_insert_eq. simpl. eauto.
Qed.

Lemma located_step (m : gmap string Ecosystem) (ev : string * string * indicator) :
  located m → located (recordEvent m ev).
Proof.
  destruct ev as [[k dir] ind]. intros Hloc tag eco. unfold recordEvent. simpl.
  destruct (decide (k = tag)) as [->|Hne]; [|rewrite recordMatch_lookup_ne by done; apply Hloc].
  destruct (recordMatch_lookup_eq m tag dir ind) as (eco1 & Hl1 & Hnew).
  destruct (recordMatch_directories m tag dir ind) as (eco2 & Hl2 & Hdirs).
  rewrite Hl1 in Hl2. injection Hl2 as <-. rewrite Hl1. intros [= <-].
  rewrite Hdirs. specialize (Hloc tag). destruct (m !! tag) as [old|].
  - destruct (Hloc old eq_refl) as (Hn & Ht & Hnd & Hroot).
    destruct Hnew as (Hn' & Ht' & _).
    split_and!; [congruence..|by apply appendUnique_NoDup|].
    intros Hr. rewrite scansFromRoot_rootOnly, Hr. apply Forall_forall.
    intros x [Hx | ->]%appendUnique_elem_of; [|done].
    specialize (Hroot Hr). rewrite Forall_forall in Hroot. by apply Hroot.
  - destruct Hnew as (Hn' & Ht' & _).
    split_and!; [done..|by apply appendUnique_NoDup, NoDup_nil|].
    intros Hr. rewrite scansFromRoot_rootOnly, Hr. apply Forall_forall.
    intros x [Hx | ->]%appendUnique_elem_of; [|done]. by apply elem_of_nil in Hx.
Qed.

Lemma located_fold (evs : list (string * string * indicator))
    (m : gmap string Ecosystem) :
  located m → located (fold_left recordEvent evs m).
Proof.
  revert m. induction evs as [|ev evs IH]; intros m Hloc; simpl; [done|].
  by apply IH, located_step.
Qed.

Lemma scanned_located (entries : list TreeEntry) :
  located (fold_left (scanEntry indicators) entries ∅).
Proof.
  rewrite scanEntries_matches. apply located_fold.
  intros tag eco. by rewrite lookup_empty.
Qed.

Lemma omap_types_NoDup (m : gmap string Ecosystem) (iteration : list string) :
  located m → NoDup iteration →
  NoDup (EcoType <$> omap (fun tag => m !! tag) iteration).
Proof.
  intros Hloc. induction 1 as [|tag iteration Hnew Hnd IH]; simpl; [constructor|].
  destruct (m !! tag) as [eco|] eqn:Hlook; [|done].
  rewrite fmap_cons. apply NoDup_cons. split; [|done].
  intros (eco' & Heq & Hin)%list_elem_of_fmap.
  apply list_elem_of_omap in Hin as (tag' & Htag' & Hlook').
  apply Hloc in Hlook as (_ & Ht & _), Hlook' as (_ & Ht' & _).
  destruct Hnew. congruence.
Qed.

(** For every tree, and templates of one rule each, what [Detect] returns
    is a well-formed input of [Merge]. *)
Lemma Detect_wellFormed (m : Merger) (iteration : list string)
    (entries : list TreeEntry) (result : list Ecosystem) :
  templatesWellFormed m →
  iteration ≡ₚ ecosystemTags →
  Detect iteration (Some entries) = Some result →
  wellFormed m result.
Proof.
  intros Htmpl Hperm. rewrite Detect_result. intros [= <-].
  pose proof (scanned_located entries) as Hloc.
  set (scanned := fold_left (scanEntry indicators) entries ∅) in *.
  unfold wellFormed. rewrite sortByConfidence_Permutation. split.
  - apply omap_types_NoDup; [done|]. rewrite Hperm. apply ecosystemTags_NoDup.
  - apply Forall_forall. intros eco (tag & _ & Hlook)%list_elem_of_omap.
    destruct (Hloc tag eco Hlook) as (Hn & Ht & Hnd & Hroot).
    unfold wellFormedEcosystem. rewrite Ht. split_and!; [done..|].
    rewrite Hn. destruct (templates m !! tag) as [t|] eqn:Hlt; [|done].
    by apply Htmpl.
Qed.

(** So the pipeline of the program, [Merge] on what [Detect] returned, gives
    an equal document when it is run again on its own output. *)
Lemma Detect_Merge_idempotent (m : Merger) (iteration : list string)
    (entries : list TreeEntry) (result : list Ecosystem)
    (existing : option DependabotConfig) :
  templatesWellFormed m →
  iteration ≡ₚ ecosystemTags →
  Detect iteration (Some entries) = Some result →
  Equal (Some (Merge m (Some (Merge m existing result)) result))
        (Some (Merge m existing result)) = true.
Proof.
  intros Htmpl Hperm Hdet. apply Equal_fields. split.
  - by rewrite !Merge_version.
  - apply rerun_fields_eq. by apply (Detect_wellFormed m iteration entries).
Qed.

(** * Further properties of the code *)

(** ** [Equal] *)

(** X1: [Equal] is an equivalence on documents, [nil] included: every
    document equals itself, the answer does not depend on which of the two is
    the receiver, equality passes along a chain, and [nil] equals [nil]
    only. *)
Theorem Equal_equivalence :
  (∀ c, Equal c c = true)
  ∧ (∀ c o, Equal c o = Equal o c)
  ∧ (∀ a b c, Equal a b = true → Equal b c = true → Equal a c = true)
  ∧ (∀ c, Equal None (Some c) = false ∧ Equal (Some c) None = false).
Proof.
  assert (∀ c o, Equal c o = true → Equal o c = true) as Hsym.
  { intros [c|] [o|]; try done. rewrite !Equal_fields. naive_solver. }
  split_and!.
  - intros [c|]; [|done]. by apply Equal_fields.
  - intros c o. destruct (Equal c o) eqn:Hco.
    + symmetry. by apply Hsym.
    + destruct (Equal o c) eqn:Hoc; [|done]. apply Hsym in Hoc. congruence.
  - intros [a|] [b|] [c|]; try done. rewrite !Equal_fields.
    intros [-> ->] [-> ->]. done.
  - done.
Qed.

(** ** [findUpdate] *)

(** X2: [findUpdate] answers [nil] exactly when no rule of the slice has
    the ecosystem asked for and (unless the ecosystem is root-only) the
    directory asked for; otherwise it answers the first such rule of the
    slice. *)
Theorem findUpdate_first (updates : list DependabotUpdate) (ecosystem directory : string) :
  (findUpdate updates ecosystem directory = None ↔
   ∀ u, u ∈ updates → ¬ ruleMatches ecosystem directory u)
  ∧ ∀ u, findUpdate updates ecosystem directory = Some u ↔
      ∃ i, updates !! i = Some u
        ∧ ruleMatches ecosystem directory u
        ∧ ∀ j v, (j < i)%nat → updates !! j = Some v →
            ¬ ruleMatches ecosystem directory v.
Proof.
  induction updates as [|w updates [IHn IHs]]; simpl.
  { split; [split; [by intros _ u ?%elem_of_nil|done]|].
    intros u. split; [done|]. by intros (i & Hi & _). }
  fold (isRootOnlyEcosystem ecosystem).
  assert (ruleMatches ecosystem directory w ↔
          (PackageEcosystem w =? ecosystem)%string = true
          ∧ (isRootOnlyEcosystem ecosystem = true
             ∨ (Directory w =? directory)%string = true)) as Hw.
  { unfold ruleMatches. by rewrite !string_eqb_true. }
  destruct (decide (ruleMatches ecosystem directory w)) as [Hm|Hm].
  - assert (findUpdate (w :: updates) ecosystem directory = Some w) as Hfw.
    { simpl. fold (isRootOnlyEcosystem ecosystem).
      apply Hw in Hm as [-> [->| ->]]; [done|].
      by destruct (isRootOnlyEcosystem ecosystem). }
    simpl in Hfw. fold (isRootOnlyEcosystem ecosystem) in Hfw. rewrite Hfw. split.
    + split; [done|]. intros Hall. destruct (Hall w); [left|done].
    + intros u. split.
      * intros [= <-]. exists 0%nat. split_and!; [done..|]. intros j v Hj. lia.
      * intros ([|i] & Hi & Hu & Hbefore).
        -- by injection Hi as ->.
        -- destruct (Hbefore 0%nat w); [lia|done..].
  - assert (findUpdate (w :: updates) ecosystem directory
            = findUpdate updates ecosystem directory) as Hfw.
    { simpl. fold (isRootOnlyEcosystem ecosystem).
      destruct (PackageEcosystem w =? ecosystem)%string eqn:He; [|done].
      destruct (isRootOnlyEcosystem ecosystem) eqn:Hr; [destruct Hm; apply Hw; auto|].
      destruct (Directory w =? directory)%string eqn:Hd; [|done].
      destruct Hm. apply Hw. auto. }
    simpl in Hfw. fold (isRootOnlyEcosystem ecosystem) in Hfw. rewrite Hfw. split.
    + rewrite IHn. split.
      * intros Hall u [->|Hu]%elem_of_cons; [done|by apply Hall].
      * intros Hall u Hu. apply Hall. by right.
    + intros u. rewrite IHs. split.
      * intros (i & Hi & Hu & Hbefore). exists (S i). split_and!; [done..|].
        intros [|j] v Hj; simpl; [by intros [= <-]|].
        apply Hbefore. lia.
      * intros ([|i] & Hi & Hu & Hbefore); simpl in Hi.
        -- injection Hi as ->. done.
        -- exists i. split_and!; [done..|]. intros j v Hj Hv.
           apply (Hbefore (S j) v); [lia|done].
Qed.

(** ** [mergeStringSlices] and [mergeUpdate] once more *)

Lemma filter_ne_id (l : list string) (x : string) :
  x ∉ l → filter (fun y => y ≠ x) l = l.
Proof.
  induction l as [|y l IH]; [done|]. intros [Hxy Hx]%not_elem_of_cons.
  rewrite filter_cons_True by done. f_equal. by apply IH.
Qed.

Lemma firstSeen_NoDup_id (l : list string) : NoDup l → firstSeen l = l.
Proof.
  induction 1 as [|x l Hx Hnd IH]; simpl; [done|].
  by rewrite IH, filter_ne_id.
Qed.

Lemma filter_none (l seen : list string) :
  (∀ x, x ∈ l → x ∈ seen) → filter (fun x => x ∉ seen) l = [].
Proof.
  induction l as [|y l IH]; [done|]. intros Hall.
  rewrite filter_cons_False by (intros Hy; apply Hy, Hall; left).
  apply IH. intros x Hx. apply Hall. by right.
Qed.

Lemma mergeStringSlices_absorb (a b : list string) :
  mergeStringSlices (mergeStringSlices a b) b = mergeStringSlices a b.
Proof.
  rewrite (mergeStringSlices_firstSeen (mergeStringSlices a b)), firstSeen_app.
  rewrite firstSeen_NoDup_id
    by (rewrite mergeStringSlices_firstSeen; apply firstSeen_NoDup).
  rewrite filter_none; [by rewrite app_nil_r|].
  intros x Hx. rewrite mergeStringSlices_firstSeen, !firstSeen_elem_of in *.
  apply elem_of_app. by right.
Qed.

(** X3: merging a rule with a template and merging the result with the
    same template again gives the same rule, in every field: [mergeUpdate] is
    idempotent in its first argument. *)
Theorem mergeUpdate_idempotent (existing template : DependabotUpdate) :
  mergeUpdate (mergeUpdate existing template) template = mergeUpdate existing template.
Proof.
  unfold mergeUpdate at 1 3. simpl. f_equal.
  - by destruct (0 <? OpenPullRequestsLimit template).
  - apply mergeStringSlices_absorb.
  - apply mergeStringSlices_absorb.
  - apply mergeStringSlices_absorb.
  - destruct (0 <? size (Groups template))%nat; [|done].
    by rewrite (assoc_L (∪)), (idemp_L (∪)).
  - by destruct (negb (VersioningStrategy template =? ""))%string.
  - by destruct (UpdateCommitMessage existing), (UpdateCommitMessage template).
Qed.

(** X4: the groups of a merged rule are the template's groups together
    with the existing rule's groups of other names: under a name the
    template has, the merged rule has the template's group, under any other
    name it has what the existing rule had, if anything. *)
Theorem mergeUpdate_groups_lookup (existing template : DependabotUpdate) (name : string) :
  Groups (mergeUpdate existing template) !! name
  = match Groups template !! name with
    | Some group => Some group
    | None => Groups existing !! name
    end.
Proof.
  simpl. destruct (0 <? size (Groups template))%nat eqn:Hsz.
  - rewrite lookup_union. by destruct (Groups template !! name), (Groups existing !! name).
  - apply Nat.ltb_ge in Hsz.
    assert (Groups template = ∅) as -> by (apply map_size_empty_iff; lia).
    by rewrite lookup_empty.
Qed.

(** X5: when the existing list has no duplicates, [mergeStringSlices]
    returns it unchanged, followed by the items of the template list that are
    not in it, each once, in the order of their first occurrence. *)
Theorem mergeStringSlices_keeps_existing (a b : list string) :
  NoDup a →
  mergeStringSlices a b = a ++ filter (fun x => x ∉ a) (firstSeen b).
Proof.
  intros Ha. by rewrite mergeStringSlices_firstSeen, firstSeen_app, firstSeen_NoDup_id.
Qed.

Lemma mergeStringSlices_keeps_existing_witness :
  NoDup ["dependencies"; "custom"]
  ∧ mergeStringSlices ["dependencies"; "custom"] ["npm"; "custom"; "npm"]
    = ["dependencies"; "custom"] ++ ["npm"].
Proof.
  assert (NoDup ["dependencies"; "custom"]) as Hnd.
  { apply (bool_decide_unpack _). vm_compute. exact I. }
  split; [exact Hnd|].
  rewrite (mergeStringSlices_keeps_existing _ ["npm"; "custom"; "npm"] Hnd).
  f_equal.
Defined.

(** ** [Merge]: where the rules of the output come from *)

Lemma bind_filter_nil {A B} (P : A → Prop) `{!∀ x, Decision (P x)}
    (f : A → list B) (l : list A) :
  (∀ x, ¬ P x → f x = []) → l ≫= f = filter P l ≫= f.
Proof.
  intros Hf. induction l as [|x l IH]; [done|].
  rewrite bind_cons, filter_cons. case_decide as HP.
  - by rewrite bind_cons, IH.
  - by rewrite (Hf x HP), IH.
Qed.

Lemma length_bind_fmap {A B C} (f : A → B → C) (l : list A) (k : list B) :
  length (l ≫= fun x => f x <$> k) = (length l * length k)%nat.
Proof.
  induction l as [|x l IH]; [done|].
  rewrite bind_cons, length_app, length_fmap, IH. simpl. lia.
Qed.

Lemma createRules_length (m : Merger) (eco : Ecosystem) :
  length (createRules m eco) = createdCount m eco.
Proof.
  unfold createRules, createdCount. destruct (templates m !! Name eco) as [t|].
  - apply (length_bind_fmap (fun dir tu => setDirectory tu dir)).
  - rewrite length_fmap. lia.
Qed.

Lemma createRules_elem_of (m : Merger) (eco : Ecosystem) (u : DependabotUpdate) :
  u ∈ createRules m eco ↔
  ∃ dir, dir ∈ Directories eco
    ∧ match templates m !! Name eco with
      | None => u = basicUpdate (EcoType eco) dir
      | Some template =>
          ∃ tmplUpdate, tmplUpdate ∈ Updates template ∧ u = setDirectory tmplUpdate dir
      end.
Proof.
  unfold createRules. destruct (templates m !! Name eco) as [t|].
  - rewrite list_elem_of_bind. split.
    + intros (dir & (tu & -> & Htu)%list_elem_of_fmap & Hdir). eauto.
    + intros (dir & Hdir & tu & Htu & ->). exists dir. split; [|done].
      apply list_elem_of_fmap. eauto.
  - rewrite list_elem_of_fmap. naive_solver.
Qed.

(** X6: without an existing configuration, the document [Merge] returns
    holds exactly the rules made for the detected ecosystems: for every
    directory of a detected ecosystem, a copy of each rule of its template
    with that directory, or, when it has no template, the basic rule (weekly,
    limit 10, label "dependencies") for that directory; their number is the
    sum, over the detected ecosystems, of directories times template rules. *)
Theorem createFromTemplates_rules_exact (m : Merger) (ecosystems : list Ecosystem) :
  (∀ u, u ∈ Updates (Merge m None ecosystems) ↔
     ∃ eco dir, eco ∈ ecosystems ∧ dir ∈ Directories eco
       ∧ match templates m !! Name eco with
         | None => u = basicUpdate (EcoType eco) dir
         | Some template =>
             ∃ tmplUpdate, tmplUpdate ∈ Updates template
               ∧ u = setDirectory tmplUpdate dir
         end)
  ∧ length (Updates (Merge m None ecosystems))
    = sum_list (createdCount m <$> ecosystems).
Proof.
  rewrite Merge_absent_updates. split.
  - intros u. rewrite sortUpdates_elem_of, list_elem_of_bind. split.
    + intros (eco & (dir & Hdir & Hu)%createRules_elem_of & Heco). eauto.
    + intros (eco & dir & Heco & Hdir & Hu). exists eco. split; [|done].
      apply createRules_elem_of. eauto.
  - rewrite sortUpdates_Permutation.
    induction ecosystems as [|eco ecosystems IH]; [done|].
    rewrite bind_cons, length_app, createRules_length, IH. done.
Qed.


Lemma bind_ext_in {A B} (f g : A → list B) (l : list A) :
  (∀ x, x ∈ l → f x = g x) → l ≫= f = l ≫= g.
Proof.
  induction l as [|x l IH]; [done|]. intros Hfg.
  rewrite !bind_cons, (Hfg x) by left. f_equal. apply IH.
  intros y Hy. apply Hfg. by right.
Qed.

Lemma mergeRules_no_template (m : Merger) (E : DependabotConfig) (eco : Ecosystem) :
  ¬ hasTemplate m eco → mergeRules m E eco = [].
Proof.
  unfold hasTemplate, mergeRules. destruct (templates m !! Name eco); [|done].
  intros H. destruct H. by eexists.
Qed.

Lemma processDetected_templated (m : Merger) (existing : DependabotConfig)
    (ecosystems : list Ecosystem) :
  processDetected m existing ecosystems
  = processDetected m existing (filter (hasTemplate m) ecosystems).
Proof.
  rewrite !processDetected_rules.
  by rewrite (bind_filter_nil (hasTemplate m) (mergeRules m existing) ecosystems)
    by apply mergeRules_no_template.
Qed.

(** X8: with an existing configuration, a detected ecosystem that has no
    template changes nothing: [Merge] returns what it returns for the
    detected ecosystems that have a template. (Without an existing
    configuration such an ecosystem gets the basic rule.) *)
Theorem Merge_ignores_untemplated (m : Merger) (existing : DependabotConfig)
    (ecosystems : list Ecosystem) :
  Merge m (Some existing) ecosystems
  = Merge m (Some existing) (filter (hasTemplate m) ecosystems).
Proof.
  unfold Merge. by rewrite processDetected_templated.
Qed.

Lemma findUpdate_nil_rules (m : Merger) (E : DependabotConfig) (eco : Ecosystem) :
  Updates E = [] → hasTemplate m eco → mergeRules m E eco = createRules m eco.
Proof.
  intros HE [t Ht]. unfold mergeRules, createRules. rewrite Ht, HE. done.
Qed.

(** X9: an existing configuration without rules is treated as an absent
    one, except that the detected ecosystems without a template get no basic
    rule: [Merge] returns what it returns without existing configuration for
    the detected ecosystems that have a template. *)
Theorem Merge_empty_existing (m : Merger) (existing : DependabotConfig)
    (ecosystems : list Ecosystem) :
  Updates existing = [] →
  Merge m (Some existing) ecosystems
  = Merge m None (filter (hasTemplate m) ecosystems).
Proof.
  intros HE. unfold Merge, createFromTemplates, carryForward.
  rewrite processDetected_templated, processDetected_rules, HE. simpl. f_equal. f_equal.
  rewrite (fold_left_snoc_bind (createRules m)) by apply createStep_rules. simpl.
  apply bind_ext_in. intros eco [Ht _]%list_elem_of_filter.
  by apply findUpdate_nil_rules.
Qed.

Lemma Merge_empty_existing_witness :
  Updates emptyConfig = []
  ∧ Merge orgMerger (Some emptyConfig) [npmMonorepo; gomodRoot]
    = Merge orgMerger None (filter (hasTemplate orgMerger) [npmMonorepo; gomodRoot]).
Proof.
  split; [reflexivity|].
  apply (Merge_empty_existing orgMerger emptyConfig [npmMonorepo; gomodRoot]).
  reflexivity.
Defined.

(** ** The detector: small functions *)

(** X10: [appendUnique] returns the slice itself when the item is in it,
    and the slice with the item added at the end otherwise. *)
Theorem appendUnique_spec (slice : list string) (item : string) :
  appendUnique slice item
  = if bool_decide (item ∈ slice) then slice else slice ++ [item].
Proof.
  induction slice as [|x slice IH]; simpl; [done|].
  destruct (x =? item)%string eqn:Hx.
  - apply string_eqb_true in Hx. subst. rewrite bool_decide_eq_true_2; [done|left].
  - apply string_eqb_false in Hx. rewrite IH.
    destruct (decide (item ∈ slice)) as [Hin|Hin].
    + rewrite !bool_decide_eq_true_2; [done|by right|done].
    + rewrite !bool_decide_eq_false_2; [done| |done].
      rewrite not_elem_of_cons. naive_solver.
Qed.

Lemma hasSlash_uptoLastSlash (path : string) :
  hasSlash path = false → uptoLastSlash path = EmptyString.
Proof.
  induction path as [|c path IH]; simpl; [done|].
  intros [Hc Hp]%orb_false_iff. by rewrite Hp, Hc.
Qed.

(** X11: the directory [extractDirectory] gives always begins with "/",
    and it is "/" for a path without separator, a file at the root of the
    repository. *)
Theorem extractDirectory_rooted (path : string) :
  hasSlashPrefix (extractDirectory path) = true
  ∧ (hasSlash path = false → extractDirectory path = "/").
Proof.
  split.
  - unfold extractDirectory. destruct (filepath_Dir path =? ".")%string; [done|].
    by destruct (hasSlashPrefix (filepath_Dir path)) eqn:Hp.
  - intros Hp. unfold extractDirectory, filepath_Dir.
    by rewrite hasSlash_uptoLastSlash.
Qed.

Lemma stripTrailingSlashes_name (name : string) :
  hasSlash name = false → stripTrailingSlashes name = name.
Proof.
  induction name as [|c name IH]; simpl; [done|].
  intros [Hc Hn]%orb_false_iff. rewrite IH by done. rewrite Hc. by destruct name.
Qed.

Lemma stripTrailingSlashes_nested (dir name : string) :
  name ≠ EmptyString → hasSlash name = false →
  stripTrailingSlashes (dir +:+ "/" +:+ name) = dir +:+ "/" +:+ name.
Proof.
  intros Hne Hn. induction dir as [|c dir IH]; simpl.
  - rewrite stripTrailingSlashes_name by done. by destruct name.
  - rewrite IH. by destruct dir.
Qed.

Lemma hasSlash_app (s t : string) : hasSlash (s +:+ t) = hasSlash s || hasSlash t.
Proof. induction s as [|c s IH]; simpl; [done|]. by rewrite IH, orb_assoc. Qed.

Lemma afterLastSlash_nested (dir name : string) :
  hasSlash name = false → afterLastSlash (dir +:+ "/" +:+ name) = name.
Proof.
  intros Hn. induction dir as [|c dir IH].
  - change (afterLastSlash (String "/" name) = name). simpl. by rewrite Hn.
  - change (afterLastSlash (String c (dir +:+ "/" +:+ name)) = name). simpl.
    rewrite hasSlash_app.
    change (hasSlash ("/" +:+ name)) with (true || hasSlash name).
    by rewrite orb_true_r.
Qed.

Lemma filepath_Base_nested (dir name : string) :
  name ≠ EmptyString → hasSlash name = false →
  filepath_Base (dir +:+ "/" +:+ name) = name.
Proof.
  intros Hne Hn. unfold filepath_Base.
  assert ((dir +:+ "/" +:+ name =? "")%string = false) as ->.
  { apply string_eqb_false. by destruct dir. }
  rewrite stripTrailingSlashes_nested, afterLastSlash_nested by done.
  by apply string_eqb_false in Hne as ->.
Qed.

(** X12: an indicator without wildcard matches a file of that name in any
    directory, at any depth, and at the root. *)
Theorem matchesPattern_any_depth (dir name : string) :
  name ≠ EmptyString → hasSlash name = false → containsStar name = false →
  matchesPattern (dir +:+ "/" +:+ name) name = true
  ∧ matchesPattern name name = true.
Proof.
  intros Hne Hn Hstar. unfold matchesPattern. rewrite Hstar.
  rewrite filepath_Base_nested by done. rewrite !string_eqb_refl.
  split; [done|]. apply orb_true_r.
Qed.

Lemma matchesPattern_any_depth_witness :
  "go.mod" ≠ EmptyString ∧ hasSlash "go.mod" = false ∧ containsStar "go.mod" = false
  ∧ matchesPattern ("services/api" +:+ "/" +:+ "go.mod") "go.mod" = true.
Proof.
  split; [done|]. split; [reflexivity|]. split; [reflexivity|].
  by apply (matchesPattern_any_depth "services/api" "go.mod").
Defined.

(** X13: a repository has an exclusion topic exactly when one of its
    topics is, letter for letter, one of "no-dependabot", "skip-dependabot"
    and "exclude-dependabot"; the order of the topics and their repetition do
    not matter. *)
Theorem HasExclusionTopic_spec (repo : Repository) :
  (HasExclusionTopic repo = true ↔
   ∃ topic, topic ∈ Topics repo ∧ topic ∈ excludeTags)
  ∧ ∀ other, (∀ topic, topic ∈ Topics repo ↔ topic ∈ Topics other) →
      HasExclusionTopic other = HasExclusionTopic repo.
Proof.
  assert (∀ r, HasExclusionTopic r = true ↔
               ∃ topic, topic ∈ Topics r ∧ topic ∈ excludeTags) as Hspec.
  { intros r. unfold HasExclusionTopic. rewrite existsb_exists. split.
    - intros (topic & Hin & (e & He & Heq)%existsb_exists).
      apply string_eqb_true in Heq as ->. exists e. by rewrite !list_elem_of_In.
    - intros (topic & Hin & He). exists topic. rewrite <-list_elem_of_In.
      split; [done|]. apply existsb_exists. exists topic.
      rewrite <-list_elem_of_In. by rewrite string_eqb_refl. }
  split; [apply Hspec|]. intros other Hsame.
  destruct (HasExclusionTopic repo) eqn:Hr.
  - apply Hspec. apply Hspec in Hr as (topic & Hin & He). exists topic.
    by rewrite <-Hsame.
  - destruct (HasExclusionTopic other) eqn:Ho; [|done].
    apply Hspec in Ho as (topic & Hin & He).
    assert (HasExclusionTopic repo = true) as Hr'; [|congruence].
    apply Hspec. exists topic. by rewrite Hsame.
Qed.

(** ** The detector: the directories and the shape of the result *)

Lemma directoriesRecorded_empty : directoriesRecorded [] ∅.
Proof. intros tag. rewrite lookup_empty. intros dir ind. apply not_elem_of_nil. Qed.

Lemma directoriesRecorded_step (evs : list (string * string * indicator))
    (m : gmap string Ecosystem) (ev : string * string * indicator) :
  directoriesRecorded evs m → directoriesRecorded (evs ++ [ev]) (recordEvent m ev).
Proof.
  destruct ev as [[k dir] ind]. intros Hrec tag. unfold recordEvent. simpl.
  specialize (Hrec tag). destruct (decide (k = tag)) as [->|Hne].
  - destruct (recordMatch_directories m tag dir ind) as (eco & -> & Hdirs).
    intros d. rewrite Hdirs, appendUnique_elem_of.
    fold (recordedDirectory tag dir). destruct (m !! tag) as [old|].
    + rewrite Hrec. split.
      * intros [(dir' & ind' & Hin & ->)| ->].
        -- exists dir', ind'. split; [|done]. apply elem_of_app. by left.
        -- exists dir, ind. split; [|done]. apply elem_of_app. right. by left.
      * intros (dir' & ind' & [Hin|Hin%list_elem_of_singleton]%elem_of_app & ->).
        -- left. eauto.
        -- right. by injection Hin as -> _.
    + split.
      * intros [Hd%elem_of_nil| ->]; [done|].
        exists dir, ind. split; [|done]. apply elem_of_app. right. by left.
      * intros (dir' & ind' & [Hin|Hin%list_elem_of_singleton]%elem_of_app & ->).
        -- by apply Hrec in Hin.
        -- right. by injection Hin as -> _.
  - rewrite recordMatch_lookup_ne by done. destruct (m !! tag) as [old|].
    + intros d. rewrite Hrec. split.
      * intros (dir' & ind' & Hin & ->). exists dir', ind'. split; [|done].
        apply elem_of_app. by left.
      * intros (dir' & ind' & [Hin|Hin%list_elem_of_singleton]%elem_of_app & ->);
          [eauto|congruence].
    + intros d i [Hi|Hi%list_elem_of_singleton]%elem_of_app; [by apply Hrec in Hi|].
      congruence.
Qed.

Lemma directoriesRecorded_fold (evs done : list (string * string * indicator))
    (m : gmap string Ecosystem) :
  directoriesRecorded done m →
  directoriesRecorded (done ++ evs) (fold_left recordEvent evs m).
Proof.
  revert done m. induction evs as [|ev evs IH]; intros done m Hrec; simpl.
  - by rewrite app_nil_r.
  - rewrite (cons_middle ev), app_assoc. by apply IH, directoriesRecorded_step.
Qed.

Lemma scanned_directories (entries : list TreeEntry) :
  directoriesRecorded (treeMatches indicators entries)
    (fold_left (scanEntry indicators) entries ∅).
Proof.
  rewrite scanEntries_matches.
  apply (directoriesRecorded_fold _ []), directoriesRecorded_empty.
Qed.

Lemma matchedIn_treeMatches (entries : list TreeEntry) (tag path : string) :
  matchedIn entries tag path ↔
  path ∈ blobPaths entries
  ∧ ∃ ind, (tag, extractDirectory path, ind) ∈ treeMatches indicators entries
      ∧ matchesPattern path (file ind) = true.
Proof.
  unfold matchedIn. split.
  - intros (Hpath & files & ind & Hfiles & Hind & Hm). split; [done|].
    exists ind. split; [|done]. apply treeMatches_elem_of. by exists path, files.
  - intros (Hpath & ind & Hin & Hm). split; [done|].
    apply treeMatches_elem_of in Hin as (path' & files & _ & Hfiles & Hind & _ & _).
    by exists files, ind.
Qed.

Lemma scanned_detected_match (entries : list TreeEntry) (tag path : string) :
  matchedIn entries tag path →
  is_Some (fold_left (scanEntry indicators) entries ∅ !! tag).
Proof.
  intros (Hpath & files & ind & Hfiles & Hind & Hm).
  pose proof (scanned_recorded entries tag) as Hrec.
  destruct (fold_left (scanEntry indicators) entries ∅ !! tag) as [eco|]; [by eexists|].
  destruct (Hrec (extractDirectory path) ind). apply treeMatches_elem_of.
  by exists path, files.
Qed.

Lemma indicators_weights :
  Forall (fun entry => Forall weightInRange entry.2) indicators.
Proof.
  unfold indicators. repeat (apply Forall_cons; split); try apply Forall_nil.
  all: split; by vm_compute.
Qed.

Lemma recordedDirectory_rooted (tag path : string) :
  hasSlashPrefix (recordedDirectory tag (extractDirectory path)) = true.
Proof.
  unfold recordedDirectory. destruct (scansFromRoot tag); [done|].
  unfold extractDirectory. destruct (filepath_Dir path =? ".")%string; [done|].
  by destruct (hasSlashPrefix (filepath_Dir path)) eqn:Hp.
Qed.

Lemma scanned_matched (entries : list TreeEntry) (tag : string) (eco : Ecosystem) :
  fold_left (scanEntry indicators) entries ∅ !! tag = Some eco →
  ∀ d, d ∈ Directories eco ↔
    ∃ path, matchedIn entries tag path
      ∧ d = recordedDirectory tag (extractDirectory path).
Proof.
  intros Hlook d.
  pose proof (scanned_directories entries tag) as Hdirs.
  rewrite Hlook in Hdirs. rewrite Hdirs. split.
  - intros (dir & ind & Hin & ->).
    apply treeMatches_elem_of in Hin as (path & files & Hp & Hf & Hi & Hm & ->).
    exists path. split; [|done]. split; [done|]. by exists files, ind.
  - intros (path & (Hp & files & ind & Hf & Hi & Hm) & ->).
    exists (extractDirectory path), ind. split; [|done].
    apply treeMatches_elem_of. by exists path, files.
Qed.

(** X14: the directories of a detected ecosystem are exactly the
    directories of the files of the tree that match one of its indicators,
    and "/" alone for docker, github-actions, terraform and gitsubmodule,
    wherever their files are. *)
Theorem Detect_directories (iteration : list string) (entries : list TreeEntry)
    (result : list Ecosystem) (eco : Ecosystem) :
  Detect iteration (Some entries) = Some result →
  eco ∈ result →
  ∀ d, d ∈ Directories eco ↔
    ∃ path, matchedIn entries (Name eco) path
      ∧ d = recordedDirectory (Name eco) (extractDirectory path).
Proof.
  intros Hdet Heco.
  apply (Detect_elem_of _ _ _ _ Hdet) in Heco as (tag & _ & Hlook).
  pose proof (scanned_max entries tag eco Hlook) as [<- _].
  by apply scanned_matched.
Qed.

Lemma Detect_directories_witness :
  Detect ecosystemTags (Some monorepoTree) = Some monorepoDetected
  ∧ npmManifests ∈ monorepoDetected
  ∧ ("/packages/ui" ∈ Directories npmManifests ↔
     ∃ path, matchedIn monorepoTree (Name npmManifests) path
       ∧ "/packages/ui" = recordedDirectory (Name npmManifests) (extractDirectory path)).
Proof.
  assert (Detect ecosystemTags (Some monorepoTree) = Some monorepoDetected) as Hdet
    by (vm_compute; reflexivity).
  assert (npmManifests ∈ monorepoDetected) as Hin by (right; left).
  split; [exact Hdet|]. split; [exact Hin|].
  exact (Detect_directories ecosystemTags monorepoTree monorepoDetected npmManifests
           Hdet Hin "/packages/ui").
Defined.

(** X15: every detected ecosystem [Detect] returns has its tag as name
    and type, a tag of the table; a confidence in (0, 1]; and a list of
    directories that is not empty, has no duplicates and holds only paths
    beginning with "/", which for a root-only ecosystem is the single
    directory "/". *)
Theorem Detect_output_shape (iteration : list string) (entries : list TreeEntry)
    (result : list Ecosystem) (eco : Ecosystem) :
  Detect iteration (Some entries) = Some result →
  eco ∈ result →
  EcoType eco = Name eco
  ∧ Name eco ∈ ecosystemTags
  ∧ (0 < Confidence eco)%Q ∧ (Confidence eco <= 1)%Q
  ∧ Directories eco ≠ []
  ∧ NoDup (Directories eco)
  ∧ Forall (fun d => hasSlashPrefix d = true) (Directories eco)
  ∧ (isRootOnlyEcosystem (Name eco) = true → Directories eco = ["/"]).
Proof.
  intros Hdet Heco.
  apply (Detect_elem_of _ _ _ _ Hdet) in Heco as (tag & _ & Hlook).
  pose proof (scanned_matched entries tag eco Hlook) as Hdirs.
  pose proof (scanned_max entries tag eco Hlook)
    as [Hname [(path & files & ind & Hp & Hf & Hi & Hm & Hc) _]].
  destruct (scanned_located entries tag eco Hlook) as (_ & Htype & Hnd & Hroot).
  subst tag.
  assert (weightInRange ind) as [Hpos Hle].
  { pose proof indicators_weights as Hw. rewrite Forall_forall in Hw.
    specialize (Hw _ Hf). simpl in Hw. rewrite Forall_forall in Hw. by apply Hw. }
  assert (Directories eco ≠ []) as Hne.
  { intros Hnil.
    assert (recordedDirectory (Name eco) (extractDirectory path) ∈ Directories eco) as Hin.
    { apply Hdirs. exists path. split; [|done]. split; [done|]. by exists files, ind. }
    rewrite Hnil in Hin. by apply elem_of_nil in Hin. }
  split_and!; [done| |by rewrite Hc..|done|done| |].
  - apply list_elem_of_fmap. by exists (Name eco, files).
  - apply Forall_forall. intros d (p & _ & ->)%Hdirs. apply recordedDirectory_rooted.
  - intros Hr. specialize (Hroot Hr). rewrite Forall_forall in Hroot.
    destruct (Directories eco) as [|d1 [|d2 ds]]; [done| |].
    + by rewrite (Hroot d1) by left.
    + apply NoDup_cons in Hnd as [Hd1 _]. destruct Hd1.
      rewrite (Hroot d1) by left. rewrite <-(Hroot d2) by (right; left). left.
Qed.

Lemma Detect_output_shape_witness :
  Detect ecosystemTags (Some monorepoTree) = Some monorepoDetected
  ∧ dockerRoot ∈ monorepoDetected
  ∧ Directories dockerRoot = ["/"].
Proof.
  assert (Detect ecosystemTags (Some monorepoTree) = Some monorepoDetected) as Hdet
    by (vm_compute; reflexivity).
  assert (dockerRoot ∈ monorepoDetected) as Hin by left.
  split; [exact Hdet|]. split; [exact Hin|].
  apply (Detect_output_shape ecosystemTags monorepoTree monorepoDetected dockerRoot
           Hdet Hin).
  reflexivity.
Defined.

(** X16: [Detect] returns no ecosystem exactly when no file of the tree
    matches any indicator of the table; an empty tree, or one without
    manifests, is not an error. *)
Theorem Detect_nothing (iteration : list string) (entries : list TreeEntry) :
  iteration ≡ₚ ecosystemTags →
  Detect iteration (Some entries) = Some [] ↔
  ∀ tag path, ¬ matchedIn entries tag path.
Proof.
  intros Hperm. split.
  - intros Hdet tag path Hm.
    destruct (scanned_detected_match entries tag path Hm) as [eco Hlook].
    assert (eco ∈ @nil Ecosystem) as Hin; [|by apply elem_of_nil in Hin].
    apply (Detect_elem_of _ _ _ _ Hdet). exists tag. split; [|done].
    rewrite Hperm. destruct Hm as (_ & files & ind & Hf & _).
    apply list_elem_of_fmap. by exists (tag, files).
  - intros Hnone. rewrite Detect_result. f_equal. apply elem_of_nil_inv.
    intros eco Hin. rewrite sortByConfidence_Permutation in Hin.
    apply list_elem_of_omap in Hin as (tag & _ & Hlook).
    pose proof (scanned_max entries tag eco Hlook)
      as [_ [(path & files & ind & Hp & Hf & Hi & Hm & _) _]].
    apply (Hnone tag path). split; [done|]. by exists files, ind.
Qed.

Lemma Detect_nothing_witness :
  ecosystemTags ≡ₚ ecosystemTags
  ∧ Detect ecosystemTags (Some [blob "README.md"; blob "docs/guide.md"]) = Some []
  ∧ ¬ matchedIn [blob "README.md"; blob "docs/guide.md"] "npm" "README.md".
Proof.
  assert (Detect ecosystemTags (Some [blob "README.md"; blob "docs/guide.md"]) = Some [])
    as Hdet by (vm_compute; reflexivity).
  split; [reflexivity|]. split; [exact Hdet|].
  apply (Detect_nothing ecosystemTags [blob "README.md"; blob "docs/guide.md"]).
  - reflexivity.
  - exact Hdet.
Defined.

(** X17: [Detect] reads the paths of the blobs of the tree and nothing
    else: two trees with the same blob paths, in the same order, give the
    same result, whatever other entries (directories, submodule commits,
    entries without type or path) they hold. *)
Theorem Detect_reads_blobs_only (iteration : list string)
    (entries entries' : list TreeEntry) :
  blobPaths entries = blobPaths entries' →
  Detect iteration (Some entries) = Detect iteration (Some entries').
Proof.
  intros Hblobs. rewrite !Detect_result, !scanEntries_matches.
  unfold treeMatches. by rewrite Hblobs.
Qed.

Lemma Detect_reads_blobs_only_witness :
  blobPaths monorepoTree
  = blobPaths [blob "package.json"; blob "packages/ui/package.json";
               blob "services/api/Dockerfile"]
  ∧ Detect ecosystemTags (Some monorepoTree)
    = Detect ecosystemTags
        (Some [blob "package.json"; blob "packages/ui/package.json";
               blob "services/api/Dockerfile"]).
Proof.
  split; [reflexivity|].
  apply (Detect_reads_blobs_only ecosystemTags monorepoTree). reflexivity.
Defined.

(** ** The reporter *)

Lemma wrapInt_congr (a b k : Z) : a = b + k * 2 ^ 64 → wrapInt a = wrapInt b.
Proof.
  intros ->. unfold wrapInt. f_equal.
  replace (b + k * 2 ^ 64 + 2 ^ 63) with (b + 2 ^ 63 + k * 2 ^ 64) by lia.
  apply Z_mod_plus_full.
Qed.

Lemma wrapInt_repr (a : Z) : ∃ k, wrapInt a = a + k * 2 ^ 64.
Proof.
  unfold wrapInt. exists (- ((a + 2 ^ 63) / 2 ^ 64)).
  pose proof (Z.div_mod (a + 2 ^ 63) (2 ^ 64)) as H. lia.
Qed.

Lemma wrapInt_succ (a : Z) : wrapInt (wrapInt a + 1) = wrapInt (a + 1).
Proof.
  destruct (wrapInt_repr a) as [k ->]. apply (wrapInt_congr _ _ k). lia.
Qed.

Lemma wrapInt_small (a : Z) : - 2 ^ 63 ≤ a < 2 ^ 63 → wrapInt a = a.
Proof. intros Ha. unfold wrapInt. rewrite Z.mod_small; lia. Qed.

Lemma filterByStatus_filter (r : Reporter) (status : string) :
  filterByStatus r status
  = filter (fun d => DetailStatus d = status) (RepositoryDetails (report r)).
Proof.
  unfold filterByStatus.
  assert (∀ l acc,
    fold_left
      (fun filtered repo =>
         if (DetailStatus repo =? status)%string then filtered ++ [repo] else filtered)
      l acc
    = acc ++ filter (fun d => DetailStatus d = status) l) as Hfold; [|apply Hfold].
  induction l as [|d l IH]; intros acc; simpl; [by rewrite app_nil_r|].
  rewrite IH, filter_cons. destruct (DetailStatus d =? status)%string eqn:Hd.
  - apply string_eqb_true in Hd. rewrite decide_True by done. by rewrite <-app_assoc.
  - apply string_eqb_false in Hd. by rewrite decide_False by done.
Qed.

Lemma statusCount_add (r : Reporter) repo ecosystems status skipReason err now
    (which : string) :
  statusCount (AddRepository r repo ecosystems status skipReason err now) which
  = statusCount r which + (if (status =? which)%string then 1 else 0).
Proof.
  unfold statusCount. simpl. rewrite filter_app, length_app, filter_cons. simpl.
  destruct (status =? which)%string eqn:Hs.
  - apply string_eqb_true in Hs. rewrite decide_True by done. simpl. lia.
  - apply string_eqb_false in Hs. rewrite decide_False by done. simpl. lia.
Qed.

Lemma otherCount_add (r : Reporter) repo ecosystems status skipReason err now :
  otherCount (AddRepository r repo ecosystems status skipReason err now)
  = otherCount r
    + (if (status =? "configured")%string || (status =? "updated")%string
          || (status =? "skipped")%string || (status =? "failed")%string
       then 0 else 1).
Proof.
  unfold otherCount. simpl. rewrite filter_app, length_app, filter_cons. simpl.
  destruct ((status =? "configured")%string || (status =? "updated")%string
            || (status =? "skipped")%string || (status =? "failed")%string) eqn:Hs.
  - rewrite decide_False; [simpl; lia|].
    rewrite !orb_true_iff, !string_eqb_true in Hs. naive_solver.
  - rewrite decide_True; [simpl; lia|].
    rewrite !orb_false_iff, !string_eqb_false in Hs. naive_solver.
Qed.

Lemma counters_wrapped (r : Reporter) :
  reachable r →
  TotalRepositories (ReportSummary (report r))
  = wrapInt (Z.of_nat (length (RepositoryDetails (report r))))
  ∧ ConfiguredRepositories (ReportSummary (report r))
    = wrapInt (statusCount r "configured")
  ∧ UpdatedRepositories (ReportSummary (report r)) = wrapInt (statusCount r "updated")
  ∧ SkippedRepositories (ReportSummary (report r)) = wrapInt (statusCount r "skipped")
  ∧ FailedRepositories (ReportSummary (report r)) = wrapInt (statusCount r "failed")
  ∧ ProcessedRepositories (ReportSummary (report r)) = wrapInt (otherCount r).
Proof.
  induction 1 as [org dir verbose now|r repo ecosystems status skipReason err now Hr IH].
  - by vm_compute.
  - destruct IH as (Ht & Hc & Hu & Hs & Hf & Hp).
    rewrite !statusCount_add, otherCount_add. simpl.
    rewrite Ht, Hc, Hu, Hs, Hf, Hp, length_app. simpl. split_and!.
    + rewrite wrapInt_succ. f_equal. lia.
    + destruct (status =? "configured")%string; [apply wrapInt_succ|f_equal; lia].
    + destruct (status =? "updated")%string; [apply wrapInt_succ|f_equal; lia].
    + destruct (status =? "skipped")%string; [apply wrapInt_succ|f_equal; lia].
    + destruct (status =? "failed")%string; [apply wrapInt_succ|f_equal; lia].
    + destruct ((status =? "configured")%string || (status =? "updated")%string
                || (status =? "skipped")%string || (status =? "failed")%string);
        [f_equal; lia|apply wrapInt_succ].
Qed.

Lemma filter_length_le {A} (P : A → Prop) `{!∀ x, Decision (P x)} (l : list A) :
  (length (filter P l) ≤ length l)%nat.
Proof.
  induction l as [|x l IH]; [done|]. rewrite filter_cons.
  case_decide; simpl; lia.
Qed.

(** X18: in every report the program can reach, the counters of the
    summary agree with the repository details: the total is the number of
    details, and the configured, updated, skipped and failed counters are the
    numbers of details [filterByStatus] returns for these statuses (as Go
    [int]s, and so exactly as long as there are fewer than 2^63 details). *)
Theorem counters_match_details (r : Reporter) :
  reachable r →
  Z.of_nat (length (RepositoryDetails (report r))) < 2 ^ 63 →
  TotalRepositories (ReportSummary (report r))
  = Z.of_nat (length (RepositoryDetails (report r)))
  ∧ ConfiguredRepositories (ReportSummary (report r))
    = Z.of_nat (length (filterByStatus r "configured"))
  ∧ UpdatedRepositories (ReportSummary (report r))
    = Z.of_nat (length (filterByStatus r "updated"))
  ∧ SkippedRepositories (ReportSummary (report r))
    = Z.of_nat (length (filterByStatus r "skipped"))
  ∧ FailedRepositories (ReportSummary (report r))
    = Z.of_nat (length (filterByStatus r "failed")).
Proof.
  intros Hr Hlen. destruct (counters_wrapped r Hr) as (Ht & Hc & Hu & Hs & Hf & _).
  rewrite !filterByStatus_filter. unfold statusCount in *.
  assert (∀ status,
    wrapInt (Z.of_nat (length (filter (fun d => DetailStatus d = status)
                                 (RepositoryDetails (report r)))))
    = Z.of_nat (length (filter (fun d => DetailStatus d = status)
                          (RepositoryDetails (report r))))) as Hsmall.
  { intros status. apply wrapInt_small.
    pose proof (filter_length_le (fun d => DetailStatus d = status)
                  (RepositoryDetails (report r))). lia. }
  rewrite Ht, Hc, Hu, Hs, Hf, !Hsmall. split_and!; try done.
  apply wrapInt_small. lia.
Qed.

Lemma sampleReporter_reachable : reachable sampleReporter.
Proof. repeat apply reachable_add. apply reachable_new. Qed.

Lemma counters_match_details_witness :
  reachable sampleReporter
  ∧ Z.of_nat (length (RepositoryDetails (report sampleReporter))) < 2 ^ 63
  ∧ TotalRepositories (ReportSummary (report sampleReporter))
    = Z.of_nat (length (RepositoryDetails (report sampleReporter))).
Proof.
  assert (Z.of_nat (length (RepositoryDetails (report sampleReporter))) < 2 ^ 63) as Hlen
    by (vm_compute; reflexivity).
  split; [exact sampleReporter_reachable|]. split; [exact Hlen|].
  apply (counters_match_details sampleReporter sampleReporter_reachable Hlen).
Defined.

(** X19: in every report the program can reach, a detail is marked as
    having an existing configuration exactly when its status is "configured"
    and as updated exactly when its status is "updated"; a repository whose
    configuration was updated is thus never reported as having had one. *)
Theorem detail_flags (r : Reporter) (d : RepositoryDetail) :
  reachable r →
  d ∈ RepositoryDetails (report r) →
  (HasExistingConfig d = true ↔ DetailStatus d = "configured")
  ∧ (ConfigUpdated d = true ↔ DetailStatus d = "updated")
  ∧ (HasExistingConfig d = true → ConfigUpdated d = false).
Proof.
  intros Hr. revert d.
  induction Hr as [org dir verbose now|r repo ecosystems status skipReason err now Hr IH];
    intros d Hd.
  - by apply elem_of_nil in Hd.
  - simpl in Hd. apply elem_of_app in Hd as [Hd|Hd%list_elem_of_singleton]; [by apply IH|].
    subst d. simpl. rewrite !string_eqb_true. split_and!; [done..|].
    intros ->. done.
Qed.

Lemma detail_flags_witness :
  reachable sampleReporter
  ∧ ∃ d, d ∈ RepositoryDetails (report sampleReporter)
      ∧ DetailStatus d = "updated"
      ∧ ConfigUpdated d = true ∧ HasExistingConfig d = false.
Proof.
  split; [exact sampleReporter_reachable|].
  eexists. split; [left|]. split; [reflexivity|].
  destruct (detail_flags sampleReporter _ sampleReporter_reachable
              (list_elem_of_here _ _)) as (_ & Hupd & _).
  split; [by apply Hupd|reflexivity].
Defined.

Lemma countEcosystem_fold (ecos counted : list Ecosystem) (bd : gmap string Z) :
  (∀ name,
     default 0 (bd !! name)
     = wrapInt (Z.of_nat (length (filter (fun eco => Name eco = name) counted)))
     ∧ (bd !! name = None ↔ filter (fun eco => Name eco = name) counted = [])) →
  ∀ name,
    default 0 (fold_left countEcosystem ecos bd !! name)
    = wrapInt (Z.of_nat (length (filter (fun eco => Name eco = name) (counted ++ ecos))))
    ∧ (fold_left countEcosystem ecos bd !! name = None ↔
       filter (fun eco => Name eco = name) (counted ++ ecos) = []).
Proof.
  revert counted bd. induction ecos as [|eco ecos IH]; intros counted bd Hinv name; simpl.
  - rewrite app_nil_r. apply Hinv.
  - rewrite (cons_middle eco), app_assoc. apply IH. clear name. intros name.
    unfold countEcosystem. rewrite filter_app, filter_cons, length_app.
    destruct (Hinv name) as [Hval Hnone].
    destruct (decide (Name eco = name)) as [->|Hne].
    + rewrite lookup_insert_eq. simpl. split.
      * rewrite Hval, wrapInt_succ. f_equal. lia.
      * split; [done|]. intros Happ. by apply app_eq_nil in Happ as [_ ?].
    + rewrite lookup_insert_ne by done. simpl. rewrite app_nil_r, Nat.add_0_r. done.
Qed.

(** X20: in every report the program can reach, the ecosystem breakdown
    holds, under every ecosystem name, the number of times an ecosystem of
    that name was detected over the repositories of the report (as a Go
    [int]), and has no entry for a name that was never detected. *)
Theorem breakdown_counts (r : Reporter) (name : string) :
  reachable r →
  default 0 (EcosystemBreakdown (ReportSummary (report r)) !! name)
  = wrapInt (detectedCount r name)
  ∧ (EcosystemBreakdown (ReportSummary (report r)) !! name = None ↔
     detectedCount r name = 0).
Proof.
  intros Hr. unfold detectedCount.
  assert (default 0 (EcosystemBreakdown (ReportSummary (report r)) !! name)
          = wrapInt (Z.of_nat (length (filter (fun eco => Name eco = name)
                                  (RepositoryDetails (report r) ≫= DetectedEcosystems))))
          ∧ (EcosystemBreakdown (ReportSummary (report r)) !! name = None ↔
             filter (fun eco => Name eco = name)
               (RepositoryDetails (report r) ≫= DetectedEcosystems) = [])) as [Hv Hn].
  { revert name.
    induction Hr as [org dir verbose now|r repo ecosystems status skipReason err now Hr IH];
      intros name.
    - simpl. rewrite lookup_empty. done.
    - simpl. rewrite bind_app, bind_singleton. simpl.
      by apply countEcosystem_fold. }
  split; [done|]. rewrite Hn. split.
  - by intros ->.
  - intros Hz. apply length_zero_iff_nil. lia.
Qed.

Lemma breakdown_counts_witness :
  reachable sampleReporter
  ∧ EcosystemBreakdown (ReportSummary (report sampleReporter)) !! "npm" = Some 1
  ∧ EcosystemBreakdown (ReportSummary (report sampleReporter)) !! "gomod" = None.
Proof.
  split; [exact sampleReporter_reachable|].
  destruct (breakdown_counts sampleReporter "gomod" sampleReporter_reachable) as [_ Hnone].
  split; [by vm_compute|]. apply Hnone. by vm_compute.
Defined.

(** X21: in every report the program can reach, every recorded error
    belongs to a repository detail of the same repository name that carries
    the same message, and there are no more errors than details. *)
Theorem errors_have_details (r : Reporter) :
  reachable r →
  (length (Errors (report r)) ≤ length (RepositoryDetails (report r)))%nat
  ∧ ∀ e, e ∈ Errors (report r) →
      ∃ d, d ∈ RepositoryDetails (report r)
        ∧ DetailName d = ErrorRepository e ∧ DetailError d = ErrorMessage e.
Proof.
  induction 1 as [org dir verbose now|r repo ecosystems status skipReason err now Hr IH].
  - split; [done|]. by intros e ?%elem_of_nil.
  - destruct IH as [Hlen Hall]. simpl. rewrite length_app. simpl.
    assert (∀ e, e ∈ Errors (report r) →
              ∃ d, d ∈ RepositoryDetails (report r)
                     ++ [{| DetailName := GetName repo; DetailStatus := status;
                            DetectedEcosystems := ecosystems;
                            HasExistingConfig := (status =? "configured")%string;
                            ConfigUpdated := (status =? "updated")%string;
                            SkipReason := skipReason; DetailError := default "" err;
                            DetailURL := GetHTMLURL repo; DetailTopics := Topics repo |}]
                ∧ DetailName d = ErrorRepository e ∧ DetailError d = ErrorMessage e)
      as Hold.
    { intros e He. destruct (Hall e He) as (d & Hd & Hn & Hm). exists d.
      split; [|done]. apply elem_of_app. by left. }
    destruct err as [message|]; simpl.
    + rewrite length_app. simpl. split; [lia|].
      intros e [He|He%list_elem_of_singleton]%elem_of_app; [by apply Hold|].
      subst e. eexists. split; [apply elem_of_app; right; left|]. done.
    + split; [lia|]. exact Hold.
Qed.

Lemma errors_have_details_witness :
  reachable sampleReporter
  ∧ (length (Errors (report sampleReporter))
     ≤ length (RepositoryDetails (report sampleReporter)))%nat.
Proof.
  split; [exact sampleReporter_reachable|].
  apply (errors_have_details sampleReporter sampleReporter_reachable).
Defined.

Lemma handled_partition (l : list RepositoryDetail) :
  Z.of_nat (length (filter (fun d => DetailStatus d ≠ "skipped" ∧ DetailStatus d ≠ "failed") l))
  = Z.of_nat (length l)
    - Z.of_nat (length (filter (fun d => DetailStatus d = "skipped") l))
    - Z.of_nat (length (filter (fun d => DetailStatus d = "failed") l)).
Proof.
  induction l as [|d l IH]; [done|]. rewrite !filter_cons.
  destruct (decide (DetailStatus d = "skipped")) as [Hs|Hs];
    destruct (decide (DetailStatus d = "failed")) as [Hf|Hf].
  - congruence.
  - rewrite decide_False by naive_solver. simpl. lia.
  - rewrite decide_False by naive_solver. simpl. lia.
  - rewrite decide_True by done. simpl. lia.
Qed.

(** X22: after [Finalize], in every report the program can reach, the
    processed counter is the number of repository details that are neither
    skipped nor failed (as a Go [int]), whatever it held before; the other
    counters, the details and the errors are as they were. *)
Theorem Finalize_processed (r : Reporter) (now : Z) :
  reachable r →
  ProcessedRepositories (ReportSummary (report (Finalize r now))) = wrapInt (handledCount r)
  ∧ TotalRepositories (ReportSummary (report (Finalize r now)))
    = TotalRepositories (ReportSummary (report r))
  ∧ SkippedRepositories (ReportSummary (report (Finalize r now)))
    = SkippedRepositories (ReportSummary (report r))
  ∧ FailedRepositories (ReportSummary (report (Finalize r now)))
    = FailedRepositories (ReportSummary (report r))
  ∧ RepositoryDetails (report (Finalize r now)) = RepositoryDetails (report r)
  ∧ Errors (report (Finalize r now)) = Errors (report r).
Proof.
  intros Hr. split; [|done]. simpl.
  destruct (counters_wrapped r Hr) as (Ht & _ & _ & Hs & Hf & _).
  rewrite Ht, Hs, Hf. unfold handledCount, statusCount. rewrite handled_partition.
  set (L := Z.of_nat (length (RepositoryDetails (report r)))).
  set (S := Z.of_nat (length (filter (fun d => DetailStatus d = "skipped")
                                (RepositoryDetails (report r))))).
  set (F := Z.of_nat (length (filter (fun d => DetailStatus d = "failed")
                                (RepositoryDetails (report r))))).
  destruct (wrapInt_repr L) as [k1 ->], (wrapInt_repr S) as [k2 ->],
    (wrapInt_repr F) as [k3 ->].
  destruct (wrapInt_repr (L + k1 * 2 ^ 64 - (S + k2 * 2 ^ 64))) as [k4 ->].
  apply (wrapInt_congr _ _ (k1 - k2 + k4 - k3)). lia.
Qed.

Lemma Finalize_processed_witness :
  reachable sampleReporter
  ∧ ProcessedRepositories (ReportSummary (report (Finalize sampleReporter 200))) = 1.
Proof.
  split; [exact sampleReporter_reachable|].
  destruct (Finalize_processed sampleReporter 200 sampleReporter_reachable) as [-> _].
  by vm_compute.
Defined.

(** X23: [Finalize] may be called again (as [SaveReport] and
    [PrintSummary] both do): the second call leaves the summary, the details
    and the errors as the first call left them. *)
Theorem Finalize_again (r : Reporter) (now later : Z) :
  ReportSummary (report (Finalize (Finalize r now) later))
  = ReportSummary (report (Finalize r now))
  ∧ RepositoryDetails (report (Finalize (Finalize r now) later))
    = RepositoryDetails (report (Finalize r now))
  ∧ Errors (report (Finalize (Finalize r now) later)) = Errors (report (Finalize r now)).
Proof.
  split; [|done]. simpl. f_equal.
  by destruct (0 <? TotalRepositories (ReportSummary (report r))).
Qed.

(** ** Processing one repository *)


(** X24: [processRepository] hands a configuration to
    [applyConfiguration] only outside dry-run mode, for a repository without
    exclusion topic, whose tree could be read and shows at least one
    ecosystem, whose existing configuration could be fetched, and only when
    there is no existing configuration or the merged one is not [Equal] to
    it; the configuration it hands over is then [Merge] of the existing
    configuration and the detected ecosystems. In all these cases it does
    call it. *)
Theorem processRepository_writes (m : Merger) (dryRun : bool) (w : world)
    (rep : Reporter) (repo : Repository) (cfg : DependabotConfig) :
  (processRepository m dryRun w rep repo).2 = Some cfg ↔
  dryRun = false
  ∧ HasExclusionTopic repo = false
  ∧ ∃ ecosystems existing,
      Detect (iteration w) (tree w) = Some ecosystems
      ∧ ecosystems ≠ []
      ∧ existingResult w = inr existing
      ∧ cfg = Merge m existing ecosystems
      ∧ (existing = None ∨ Equal existing (Some cfg) = false).
Proof.
  unfold processRepository.
  destruct (HasExclusionTopic repo); [naive_solver|].
  destruct (Detect (iteration w) (tree w)) as [ecosystems|]; [|naive_solver].
  destruct ecosystems as [|eco ecosystems]; [naive_solver|]. simpl.
  destruct (existingResult w) as [err|existing]; [naive_solver|].
  destruct (isPresent existing && Equal existing (Some (Merge m existing (eco :: ecosystems))))
    eqn:Hsame.
  - simpl. split; [done|]. intros (_ & _ & ecos & ex & [= <-] & _ & [= <-] & -> & Hdiff).
    apply andb_true_iff in Hsame as [Hp He]. destruct Hdiff as [->|Hdiff]; [done|congruence].
  - assert (existing = None
            ∨ Equal existing (Some (Merge m existing (eco :: ecosystems))) = false) as Hdiff.
    { apply andb_false_iff in Hsame as [Hp|He]; [left; by destruct existing|by right]. }
    destruct dryRun; simpl.
    + naive_solver.
    + split.
      * intros Hcfg. assert (cfg = Merge m existing (eco :: ecosystems)) as ->
          by (destruct (applyResult w); simpl in Hcfg; congruence).
        split_and!; [done..|]. exists (eco :: ecosystems), existing. done.
      * intros (_ & _ & ecos & ex & [= <-] & _ & [= <-] & -> & _).
        by destruct (applyResult w).
Qed.




(** ** Loading the templates *)

Lemma loadTemplate_error readFile unmarshal dir (l : list string) (err : string) :
  fold_left (loadTemplate readFile unmarshal dir) l (inl err) = inl err.
Proof. by induction l. Qed.

Lemma loadTemplates_fold readFile unmarshal dir (l : list string)
    (start : gmap string DependabotConfig) :
  NoDup (templateKey <$> l) →
  match fold_left (loadTemplate readFile unmarshal dir) l (inr start) with
  | inr loaded =>
      (∀ eco, eco ∈ l → ¬ corrupt readFile unmarshal dir eco)
      ∧ ∀ key tmpl,
          loaded !! key = Some tmpl ↔
          (∃ eco, eco ∈ l ∧ templateKey eco = key
                  ∧ loads readFile unmarshal dir eco tmpl)
          ∨ (start !! key = Some tmpl
             ∧ ∀ eco, eco ∈ l → templateKey eco = key →
                 readFile (templatePath dir eco) = None)
  | inl _ => ∃ eco, eco ∈ l ∧ corrupt readFile unmarshal dir eco
  end.
Proof.
  revert start. induction l as [|eco l IH]; intros start Hnd.
  { simpl. split; [by intros eco ?%elem_of_nil|]. intros key tmpl. split.
    - intros H. right. split; [done|]. by intros eco ?%elem_of_nil.
    - intros [(eco & ?%elem_of_nil & _) | [H _]]; done. }
  rewrite fmap_cons in Hnd. apply NoDup_cons in Hnd as [Hnew Hnd].
  simpl. destruct (readFile (templatePath dir eco)) as [data|] eqn:Hread.
  - destruct (unmarshal data) as [err|t] eqn:Hdec.
    + rewrite loadTemplate_error. exists eco. split; [left|]. by exists data, err.
    + specialize (IH (<[templateKey eco := t]> start) Hnd).
      destruct (fold_left _ l _) as [e|loaded].
      * destruct IH as (eco' & Hin & Hc). exists eco'. split; [by right|done].
      * destruct IH as [Hok Hlook]. split.
        -- intros eco' [-> | Hin]%elem_of_cons; [|by apply Hok].
           intros (d & e & Hd & He). congruence.
        -- intros key tmpl. rewrite Hlook. split.
           ++ intros [(eco' & Hin & Hk & Hl) | [Hs Hun]].
              ** left. exists eco'. split; [by right|done].
              ** apply lookup_insert_Some in Hs as [[<- <-] | [Hne Hs]].
                 --- left. exists eco. split; [left|]. split; [done|]. by exists data.
                 --- right. split; [done|].
                     intros eco' [-> | Hin]%elem_of_cons Hk; [done|by apply Hun].
           ++ intros [(eco' & [-> | Hin]%elem_of_cons & Hk & Hl) | [Hs Hun]].
              ** right. subst key. destruct Hl as (d & Hd & Ht).
                 assert (d = data) as -> by congruence.
                 assert (tmpl = t) as -> by congruence.
                 split; [apply lookup_insert_eq|].
                 intros eco' Hin Hk. destruct Hnew. rewrite <-Hk.
                 by apply list_elem_of_fmap_2.
              ** left. by exists eco'.
              ** right. destruct (decide (templateKey eco = key)) as [Hk|Hk].
                 --- rewrite (Hun eco) in Hread by (done || left). done.
                 --- rewrite lookup_insert_ne by done. split; [done|].
                     intros eco' Hin. apply Hun. by right.
  - specialize (IH start Hnd). destruct (fold_left _ l _) as [e|loaded].
    + destruct IH as (eco' & Hin & Hc). exists eco'. split; [by right|done].
    + destruct IH as [Hok Hlook]. split.
      * intros eco' [-> | Hin]%elem_of_cons; [|by apply Hok].
        intros (d & e & Hd & He). congruence.
      * intros key tmpl. rewrite Hlook. split.
        -- intros [(eco' & Hin & Hk & Hl) | [Hs Hun]].
           ++ left. exists eco'. split; [by right|done].
           ++ right. split; [done|].
              intros eco' [-> | Hin]%elem_of_cons Hk; [done|by apply Hun].
        -- intros [(eco' & [-> | Hin]%elem_of_cons & Hk & Hl) | [Hs Hun]].
           ++ destruct Hl as (d & Hd & _). congruence.
           ++ left. by exists eco'.
           ++ right. split; [done|]. intros eco' Hin. apply Hun. by right.
Qed.

Lemma templateKeys_NoDup : NoDup (templateKey <$> templateEcosystems).
Proof. apply (bool_decide_unpack _). by vm_compute. Qed.

Lemma New_loaded (readFile : string → option string)
    (unmarshal : string → string + DependabotConfig) (dir : string) (m : Merger) :
  New readFile unmarshal dir = inr m →
  templatesDir m = dir
  ∧ ∀ key tmpl,
      templates m !! key = Some tmpl ↔
      ∃ eco, eco ∈ templateEcosystems ∧ templateKey eco = key
             ∧ loads readFile unmarshal dir eco tmpl.
Proof.
  unfold New, loadTemplates. cbn [templatesDir templates].
  pose proof (loadTemplates_fold readFile unmarshal dir templateEcosystems ∅
                templateKeys_NoDup) as Hfold.
  destruct (fold_left _ templateEcosystems _) as [e|loaded]; [done|].
  destruct Hfold as [_ Hlook]. intros [= <-]. split; [done|]. simpl.
  intros key tmpl. rewrite Hlook. split; [|by left].
  intros [H | [H _]]; [done|]. by rewrite lookup_empty in H.
Qed.

Lemma Detect_name_tag (iteration : list string) (entries : list TreeEntry)
    (result : list Ecosystem) (eco : Ecosystem) :
  Detect iteration (Some entries) = Some result →
  eco ∈ result → Name eco ∈ ecosystemTags.
Proof.
  intros Hdet Heco.
  apply (Detect_elem_of _ _ _ _ Hdet) in Heco as (tag & _ & Hlook).
  pose proof (scanned_max entries tag eco Hlook)
    as [Hname [(path & files & ind & Hp & Hf & Hi & Hm & Hc) _]].
  subst tag. apply list_elem_of_fmap. by exists (Name eco, files).
Qed.

(** X27: when [New] succeeds, the merger has under each key exactly the
    template that was read and decoded for it: under "gomod" that of the
    directory "golang", under every other name of the list that of the
    directory of that name, and nothing under any other key; a template file
    that cannot be read just leaves its key without template. *)
Theorem New_templates (readFile : string → option string)
    (unmarshal : string → string + DependabotConfig) (dir : string) (m : Merger)
    (key : string) (tmpl : DependabotConfig) :
  New readFile unmarshal dir = inr m →
  templatesDir m = dir
  ∧ (templates m !! key = Some tmpl ↔
     ∃ eco, eco ∈ templateEcosystems ∧ templateKey eco = key
            ∧ loads readFile unmarshal dir eco tmpl).
Proof.
  intros [Hdir Hlook]%New_loaded. split; [done|]. apply Hlook.
Qed.

Lemma New_templates_witness :
  New sampleFiles sampleDecoder "configs"
  = inr {| templates :=
             <["python" := {| Version := 2;
                              Updates := [plainRule "pip" "/" weeklySchedule 5] |}]>
               {["npm" := {| Version := 2; Updates := [preservationTemplate] |}]};
           templatesDir := "configs" |}
  ∧ ∃ eco, eco ∈ templateEcosystems ∧ templateKey eco = "npm"
           ∧ loads sampleFiles sampleDecoder "configs" eco
               {| Version := 2; Updates := [preservationTemplate] |}.
Proof.
  assert (New sampleFiles sampleDecoder "configs"
          = inr {| templates :=
                     <["python" := {| Version := 2;
                                      Updates := [plainRule "pip" "/" weeklySchedule 5] |}]>
                       {["npm" := {| Version := 2; Updates := [preservationTemplate] |}]};
                   templatesDir := "configs" |}) as Hnew by reflexivity.
  split; [exact Hnew|].
  apply (New_templates sampleFiles sampleDecoder "configs" _ "npm"
           {| Version := 2; Updates := [preservationTemplate] |} Hnew).
  reflexivity.
Defined.

(** X28: [New] fails exactly when one of the template files of the list
    can be read and does not decode; files that are missing never make it
    fail. *)
Theorem New_fails_iff (readFile : string → option string)
    (unmarshal : string → string + DependabotConfig) (dir : string) :
  (∃ err, New readFile unmarshal dir = inl err) ↔
  ∃ eco, eco ∈ templateEcosystems ∧ corrupt readFile unmarshal dir eco.
Proof.
  unfold New, loadTemplates. cbn [templatesDir templates].
  pose proof (loadTemplates_fold readFile unmarshal dir templateEcosystems ∅
                templateKeys_NoDup) as Hfold.
  destruct (fold_left _ templateEcosystems _) as [e|loaded].
  - split; [done|]. intros _. by eexists.
  - destruct Hfold as [Hok _]. split; [by intros [err ?]|].
    intros (eco & Hin & Hc). by destruct (Hok eco Hin).
Qed.

(** X29: a template that [New] loaded is used for an ecosystem that
    [Detect] returned only when the name of the ecosystem is one of "npm",
    "gomod", "docker", "maven", "gradle", "bundler", "cargo", "composer",
    "nuget" and "github-actions": the template of the directory "python" is
    stored under "python", a name [Detect] never gives (its tag is "pip"),
    and no template is loaded for "terraform", "elm", "gitsubmodule", "pub"
    and "hex". *)
Theorem New_templates_detected (readFile : string → option string)
    (unmarshal : string → string + DependabotConfig) (dir : string) (m : Merger)
    (iteration : list string) (entries : list TreeEntry) (result : list Ecosystem)
    (eco : Ecosystem) :
  New readFile unmarshal dir = inr m →
  Detect iteration (Some entries) = Some result →
  eco ∈ result →
  hasTemplate m eco →
  Name eco ∈ templatedTags.
Proof.
  intros [_ Hlook]%New_loaded Hdet Heco [tmpl Ht].
  apply Hlook in Ht as (dirname & Hin & Hkey & _).
  pose proof (Detect_name_tag _ _ _ _ Hdet Heco) as Htag.
  rewrite <-Hkey in *. clear Hkey Hlook Hdet Heco.
  unfold templateEcosystems in Hin.
  repeat (apply elem_of_cons in Hin as [-> | Hin];
          [first [by (apply (bool_decide_unpack _); vm_compute)
                 | by (exfalso; revert Htag; apply (bool_decide_unpack _); vm_compute)]|]).
  by apply elem_of_nil in Hin.
Qed.

Lemma New_templates_detected_witness :
  Detect ecosystemTags (Some monorepoTree) = Some monorepoDetected
  ∧ npmManifests ∈ monorepoDetected
  ∧ Name npmManifests ∈ templatedTags.
Proof.
  assert (New sampleFiles sampleDecoder "configs"
          = inr {| templates :=
                     <["python" := {| Version := 2;
                                      Updates := [plainRule "pip" "/" weeklySchedule 5] |}]>
                       {["npm" := {| Version := 2; Updates := [preservationTemplate] |}]};
                   templatesDir := "configs" |}) as Hnew by reflexivity.
  assert (Detect ecosystemTags (Some monorepoTree) = Some monorepoDetected) as Hdet
    by (vm_compute; reflexivity).
  assert (npmManifests ∈ monorepoDetected) as Hin by (right; left).
  split; [exact Hdet|]. split; [exact Hin|].
  apply (New_templates_detected sampleFiles sampleDecoder "configs" _ ecosystemTags
           monorepoTree monorepoDetected npmManifests Hnew Hdet Hin).
  eexists. reflexivity.
Defined.
